(** * Extended Hamming SEC-DED codecs of ba-prototype-go

    Shallow embedding of the three packages [hamming4secded],
    [hamming11secded] and [hamming57secded] (util/ecc), and the properties
    of their [PackWithCheckBits] / [Correct] pairs.

    Go's [int64] is a [Z] in [-2^63, 2^63); [uint64] and [uint8] are [Z]
    reduced modulo [2^64] and [2^8].  Conversions and overflowing shifts are
    written out with [int64], [uint64] and [uint8] below.  Go's [int] holds
    only population counts (at most 64) and single bits, so it is a plain
    [Z]. *)

From Stdlib Require Import ZArith List Bool Lia Ascii String.
Import ListNotations.
Local Open Scope Z_scope.

(** ** Machine integers *)

Module Go.

Definition uint64 (x : Z) : Z := x mod 2 ^ 64.
Definition uint8 (x : Z) : Z := x mod 2 ^ 8.
Definition int64 (x : Z) : Z := (x + 2 ^ 63) mod 2 ^ 64 - 2 ^ 63.

Definition in_int64 (x : Z) : Prop := - 2 ^ 63 <= x < 2 ^ 63.

(** Result of a call that may end in [panic]. *)
Inductive outcome (A : Type) : Type :=
| Ok (a : A)
| Panic (msg : string).
Arguments Ok {A} a.
Arguments Panic {A} msg.

Definition bind {A B : Type} (m : outcome A) (k : A -> outcome B) : outcome B :=
  match m with
  | Ok a => k a
  | Panic msg => Panic msg
  end.

End Go.

Import Go.

Notation "x <- m ;; k" := (bind m (fun x => k))
  (at level 61, m at next level, right associativity).

(** ** Code shared, verbatim, by the three packages *)

(** [for x != 0 { n++; x &= x - 1 }]: the state of the loop is [(x, n)];
    [fuel] bounds the number of iterations.  [onesCount64_loop_exit] below
    shows that 64 iterations always reach the exit condition [x = 0]. *)
Fixpoint onesCount64_loop (fuel : nat) (x n : Z) : Z * Z :=
  match fuel with
  | O => (x, n)
  | S fuel' =>
      if x =? 0 then (x, n)
      else onesCount64_loop fuel' (Z.land x (uint64 (x - 1))) (n + 1)
  end.

Definition onesCount64 (x : Z) : Z := snd (onesCount64_loop 64 x 0).

Definition computeParity (val : Z) : Z := Z.land (onesCount64 val) 1.

Definition computeParityInt64 (val : Z) : Z :=
  Z.land (onesCount64 (uint64 val)) 1.

Definition globalParityBitp : Z := 1.
Definition checkBitp0 : Z := 2.
Definition checkBitp1 : Z := 3.
Definition checkBitp2 : Z := 4.
Definition checkBitp3 : Z := 5.
Definition checkBitp4 : Z := 6.
Definition checkBitp5 : Z := 7.

(** Each package below is transcribed function by function.  A [switch]
    with boolean cases is a chain of [if]s in the order of its cases; the
    text of a [panic] is kept without its formatted argument. *)

(** ** Package hamming4secded: extended Hamming (8, 4, 4) *)

Module Hamming4.

Definition getHammingCheckBits (packedCheckable : Z) : Z :=
  uint8 (Z.land packedCheckable 0x1c).

Definition computeHammingCheckBits (packedVal : Z) : Z :=
  let u := uint64 packedVal in
  let p2 := computeParity (Z.land u 0xe0) in
  let p1 := computeParity (Z.land u 0xc1) in
  let p0 := computeParity (Z.land u 0xa1) in
  let cbs :=
    Z.lor (Z.lor (Z.shiftl p2 checkBitp2) (Z.shiftl p1 checkBitp1)) (Z.shiftl p0 checkBitp0) in
  uint8 cbs.

(** Only the least significant 3 bits of the input value are protected. *)
Definition PackWithCheckBits (inputVal tagBit : Z) : Z :=
  let packed := Z.lor (int64 (Z.shiftl inputVal 5)) (Z.land tagBit 1) in
  let checkbits := computeHammingCheckBits packed in
  let v := Z.lor packed checkbits in
  let parity := computeParityInt64 v in
  Z.lor v (Z.shiftl (Z.land parity 1) globalParityBitp).

Definition mapSyndromeToBitPos (syndrome : Z) : outcome (Z * bool) :=
  if syndrome >? 7 then Panic "syndrome too big"
  else if syndrome >? 4 then Ok (syndrome, false)
  else if syndrome =? 4 then Ok (checkBitp2, true)
  else if syndrome =? 3 then Ok (0, false)
  else if syndrome =? 2 then Ok (checkBitp1, true)
  else if syndrome =? 1 then Ok (checkBitp0, true)
  else Panic "syndrome not mapped".

Definition Correct (packedCheckable : Z) : outcome (Z * Z) :=
  let parity := computeParityInt64 packedCheckable in
  let oldCheckbits := getHammingCheckBits packedCheckable in
  let checkbits := computeHammingCheckBits packedCheckable in
  let syndrome := Z.shiftr (Z.lxor checkbits oldCheckbits) 2 in
  if parity =? 0 then
    if syndrome =? 0 then Ok (0, packedCheckable)
    else Ok (2, 0)
  else if syndrome =? 0 then
    let correctedVal :=
      Z.lxor packedCheckable (int64 (Z.shiftl 1 globalParityBitp)) in
    Ok (1, correctedVal)
  else
    r <- mapSyndromeToBitPos syndrome ;;
    let errBitPos := fst r in
    let correctedVal :=
      Z.lxor packedCheckable (int64 (Z.shiftl 1 errBitPos)) in
    Ok (1, correctedVal).

End Hamming4.

(** ** Package hamming11secded: extended Hamming (16, 11, 4) *)

Module Hamming11.

Definition getHammingCheckBits (packedCheckable : Z) : Z :=
  uint8 (Z.land packedCheckable 0x3c).

Definition computeHammingCheckBits (packedVal : Z) : Z :=
  let u := uint64 packedVal in
  let p3 := computeParity (Z.land u 0xfe00) in
  let p2 := computeParity (Z.land u 0xf1c0) in
  let p1 := computeParity (Z.land u 0xcd81) in
  let p0 := computeParity (Z.land u 0xab41) in
  let cbs :=
    Z.lor (Z.lor (Z.lor (Z.shiftl p3 checkBitp3) (Z.shiftl p2 checkBitp2)) (Z.shiftl p1 checkBitp1)) (Z.shiftl p0 checkBitp0) in
  uint8 cbs.

(** Only the least significant 10 bits of the input value are protected. *)
Definition PackWithCheckBits (inputVal tagBit : Z) : Z :=
  let packed := Z.lor (int64 (Z.shiftl inputVal 6)) (Z.land tagBit 1) in
  let checkbits := computeHammingCheckBits packed in
  let v := Z.lor packed checkbits in
  let parity := computeParityInt64 v in
  Z.lor v (Z.shiftl (Z.land parity 1) globalParityBitp).

Definition mapSyndromeToBitPos (syndrome : Z) : outcome (Z * bool) :=
  if syndrome >? 15 then Panic "syndrome too big"
  else if syndrome >? 8 then Ok (syndrome, false)
  else if syndrome =? 8 then Ok (checkBitp3, true)
  else if syndrome >? 4 then Ok (uint8 (syndrome + 1), false)
  else if syndrome =? 4 then Ok (checkBitp2, true)
  else if syndrome =? 3 then Ok (0, false)
  else if syndrome =? 2 then Ok (checkBitp1, true)
  else if syndrome =? 1 then Ok (checkBitp0, true)
  else Panic "syndrome not mapped".

Definition Correct (packedCheckable : Z) : outcome (Z * Z) :=
  let parity := computeParityInt64 packedCheckable in
  let oldCheckbits := getHammingCheckBits packedCheckable in
  let checkbits := computeHammingCheckBits packedCheckable in
  let syndrome := Z.shiftr (Z.lxor checkbits oldCheckbits) 2 in
  if parity =? 0 then
    if syndrome =? 0 then Ok (0, packedCheckable)
    else Ok (2, 0)
  else if syndrome =? 0 then
    let correctedVal :=
      Z.lxor packedCheckable (int64 (Z.shiftl 1 globalParityBitp)) in
    Ok (1, correctedVal)
  else
    r <- mapSyndromeToBitPos syndrome ;;
    let errBitPos := fst r in
    let correctedVal :=
      Z.lxor packedCheckable (int64 (Z.shiftl 1 errBitPos)) in
    Ok (1, correctedVal).

End Hamming11.

(** ** Package hamming57secded: extended Hamming (64, 57, 4) *)

Module Hamming57.

Definition getHammingCheckBits (packedCheckable : Z) : Z :=
  uint8 (Z.land packedCheckable 0xfc).

Definition computeHammingCheckBits (packedVal : Z) : Z :=
  let u := uint64 packedVal in
  let p5 := computeParity (Z.land u 0xfffffffe00000000) in
  let p4 := computeParity (Z.land u 0xffff0001fffc0000) in
  let p3 := computeParity (Z.land u 0xff00ff01fe03f800) in
  let p2 := computeParity (Z.land u 0xf0f0f0f1e1e3c700) in
  let p1 := computeParity (Z.land u 0xcccccccd999b3601) in
  let p0 := computeParity (Z.land u 0xaaaaaaab5556ad01) in
  let cbs :=
    Z.lor (Z.lor (Z.lor (Z.lor (Z.lor (Z.shiftl p5 checkBitp5) (Z.shiftl p4 checkBitp4)) (Z.shiftl p3 checkBitp3)) (Z.shiftl p2 checkBitp2)) (Z.shiftl p1 checkBitp1)) (Z.shiftl p0 checkBitp0) in
  uint8 cbs.

(** Only the least significant 56 bits of the input value are used. *)
Definition PackWithCheckBits (inputVal tagBit : Z) : Z :=
  let packed := Z.lor (int64 (Z.shiftl inputVal 8)) (Z.land tagBit 1) in
  let checkbits := computeHammingCheckBits packed in
  let v := Z.lor packed checkbits in
  let parity := computeParityInt64 v in
  Z.lor v (Z.shiftl (Z.land parity 1) globalParityBitp).

Definition mapSyndromeToBitPos (syndrome : Z) : outcome (Z * bool) :=
  if syndrome >? 63 then Panic "syndrome too big"
  else if syndrome >? 32 then Ok (syndrome, false)
  else if syndrome =? 32 then Ok (checkBitp5, true)
  else if syndrome >? 16 then Ok (uint8 (syndrome + 1), false)
  else if syndrome =? 16 then Ok (checkBitp4, true)
  else if syndrome >? 8 then Ok (uint8 (syndrome + 2), false)
  else if syndrome =? 8 then Ok (checkBitp3, true)
  else if syndrome >? 4 then Ok (uint8 (syndrome + 3), false)
  else if syndrome =? 4 then Ok (checkBitp2, true)
  else if syndrome =? 3 then Ok (0, false)
  else if syndrome =? 2 then Ok (checkBitp1, true)
  else if syndrome =? 1 then Ok (checkBitp0, true)
  else Panic "syndrome not mapped".

Definition Correct (packedCheckable : Z) : outcome (Z * Z) :=
  let parity := computeParityInt64 packedCheckable in
  let oldCheckbits := getHammingCheckBits packedCheckable in
  let checkbits := computeHammingCheckBits packedCheckable in
  let syndrome := Z.shiftr (Z.lxor checkbits oldCheckbits) 2 in
  if parity =? 0 then
    if syndrome =? 0 then Ok (0, packedCheckable)
    else Ok (2, 0)
  else if syndrome =? 0 then
    let correctedVal :=
      Z.lxor packedCheckable (int64 (Z.shiftl 1 globalParityBitp)) in
    Ok (1, correctedVal)
  else
    r <- mapSyndromeToBitPos syndrome ;;
    let errBitPos := fst r in
    let correctedVal :=
      Z.lxor packedCheckable (int64 (Z.shiftl 1 errBitPos)) in
    Ok (1, correctedVal).

End Hamming57.

(** ** The three parameter sets *)

Inductive variant : Type := VariantA | VariantB | VariantC.

(** Total codeword bits [n]. *)
Definition codeword_bits (V : variant) : Z :=
  match V with VariantA => 8 | VariantB => 16 | VariantC => 64 end.

(** Check bits [r]. *)
Definition check_bits (V : variant) : Z :=
  match V with VariantA => 3 | VariantB => 4 | VariantC => 6 end.

(** Width [k - 1] of the Value field. *)
Definition value_bits (V : variant) : Z :=
  match V with VariantA => 3 | VariantB => 10 | VariantC => 56 end.

Definition pack (V : variant) : Z -> Z -> Z :=
  match V with
  | VariantA => Hamming4.PackWithCheckBits
  | VariantB => Hamming11.PackWithCheckBits
  | VariantC => Hamming57.PackWithCheckBits
  end.

Definition correct (V : variant) : Z -> outcome (Z * Z) :=
  match V with
  | VariantA => Hamming4.Correct
  | VariantB => Hamming11.Correct
  | VariantC => Hamming57.Correct
  end.

Definition syndrome_map (V : variant) : Z -> outcome (Z * bool) :=
  match V with
  | VariantA => Hamming4.mapSyndromeToBitPos
  | VariantB => Hamming11.mapSyndromeToBitPos
  | VariantC => Hamming57.mapSyndromeToBitPos
  end.

(** [1 << p] at type [int64]; bit 63 is the sign bit. *)
Definition bit_at (p : Z) : Z := int64 (Z.shiftl 1 p).

(** ** Specification-level notions *)

(** Number of one bits of a non-negative integer. *)
Fixpoint Pos_popcount (p : positive) : Z :=
  match p with
  | xH => 1
  | xO q => Pos_popcount q
  | xI q => 1 + Pos_popcount q
  end.

Definition popcount (x : Z) : Z :=
  match x with
  | Zpos p => Pos_popcount p
  | _ => 0
  end.

(** Parity of the bits of [w] (as a 64-bit word) selected by [m]. *)
Definition mask_parity (m w : Z) : bool :=
  Z.odd (popcount (Z.land (uint64 w) m)).

Definition word_parity (w : Z) : bool := Z.odd (popcount (uint64 w)).

(** The shape shared by the three packages: [Correct] and
    [PackWithCheckBits] differ only in the package's own helpers and in the
    shift of the Value field. *)
Section Engine.
Variable getHammingCheckBits : Z -> Z.
Variable computeHammingCheckBits : Z -> Z.
Variable mapSyndromeToBitPos : Z -> outcome (Z * bool).
Variable valueShift : Z.

Definition syndrome_of (packedCheckable : Z) : Z :=
  Z.shiftr (Z.lxor (computeHammingCheckBits packedCheckable)
                   (getHammingCheckBits packedCheckable)) 2.

Definition correct_with (packedCheckable : Z) : outcome (Z * Z) :=
  if computeParityInt64 packedCheckable =? 0 then
    if syndrome_of packedCheckable =? 0 then Ok (0, packedCheckable)
    else Ok (2, 0)
  else if syndrome_of packedCheckable =? 0 then
    Ok (1, Z.lxor packedCheckable (int64 (Z.shiftl 1 globalParityBitp)))
  else
    r <- mapSyndromeToBitPos (syndrome_of packedCheckable) ;;
    Ok (1, Z.lxor packedCheckable (int64 (Z.shiftl 1 (fst r)))).

Definition pack_with (inputVal tagBit : Z) : Z :=
  let packed :=
    Z.lor (int64 (Z.shiftl inputVal valueShift)) (Z.land tagBit 1) in
  let v := Z.lor packed (computeHammingCheckBits packed) in
  Z.lor v (Z.shiftl (Z.land (computeParityInt64 v) 1) globalParityBitp).

(** A word the decoder accepts as error free. *)
Definition valid (w : Z) : Prop :=
  computeParityInt64 w = 0 /\ syndrome_of w = 0.
End Engine.

Definition get_of (V : variant) : Z -> Z :=
  match V with
  | VariantA => Hamming4.getHammingCheckBits
  | VariantB => Hamming11.getHammingCheckBits
  | VariantC => Hamming57.getHammingCheckBits
  end.

Definition check_of (V : variant) : Z -> Z :=
  match V with
  | VariantA => Hamming4.computeHammingCheckBits
  | VariantB => Hamming11.computeHammingCheckBits
  | VariantC => Hamming57.computeHammingCheckBits
  end.

(** The syndrome [Correct] computes for a word. *)
Definition syndrome (V : variant) : Z -> Z :=
  syndrome_of (get_of V) (check_of V).

(** Bits [1 .. sh-1] of a word: global parity and check bits. *)
Definition reserved_mask (sh : Z) : Z := Z.shiftl (Z.ones (sh - 1)) 1.

(** Position [r + 2] of the lowest Value bit. *)
Definition value_shift (V : variant) : Z :=
  match V with VariantA => 5 | VariantB => 6 | VariantC => 8 end.

(** Number [2^r] of syndromes. *)
Definition syndromes (V : variant) : nat := Z.to_nat (2 ^ check_bits V).

(** A word [Correct] accepts as free of errors. *)
Definition valid_word (V : variant) : Z -> Prop :=
  valid (get_of V) (check_of V).

(** [0, 1, ..., n-1] *)
Definition Zseq (n : nat) : list Z := map Z.of_nat (seq 0 n).

(** Decidable test that a call returned [(n, c)]. *)
Definition returns (n c : Z) (o : outcome (Z * Z)) : bool :=
  match o with
  | Ok (n', c') => (n' =? n) && (c' =? c)
  | Panic _ => false
  end.

(** *** The syndrome table in words

    A syndrome of 3 is the Tag bit, a power of two [2^i] is check bit
    [i + 2], and any other syndrome [s] is a Value bit at [s] plus an
    adjustment, which is the parameter here. *)
Definition map_as_specified (adjust : variant -> Z -> Z)
    (V : variant) (s : Z) : outcome (Z * bool) :=
  if s =? 3 then Ok (0, false)
  else if s =? 2 ^ Z.log2 s then Ok (Z.log2 s + 2, true)
  else Ok (s + adjust V s, false).

(** The check-bit thresholds [1, 2, 4, ..., 2^(r-1)] that satisfy [rel]. *)
Definition count_thresholds (rel : Z -> bool) (V : variant) : Z :=
  Z.of_nat (List.length (filter (fun i => rel (2 ^ i))
                      (Zseq (Z.to_nat (check_bits V))))).

(** Reading of the specification: one for each threshold at or below [s]. *)
Definition thresholds_passed (V : variant) (s : Z) : Z :=
  count_thresholds (fun th => th <=? s) V.

(** What the packages do: one for each threshold above [s]. *)
Definition thresholds_above (V : variant) (s : Z) : Z :=
  count_thresholds (fun th => s <? th) V.

Definition outcome_eqb (a b : outcome (Z * bool)) : bool :=
  match a, b with
  | Ok (p, c), Ok (p', c') => (p =? p') && Bool.eqb c c'
  | Panic m, Panic m' => String.eqb m m'
  | _, _ => false
  end.

(** *** Input values wider than the Value field *)

(** The packed word of [v] differs from that of its low [k - 1] bits and
    has a bit outside the [n]-bit layout. *)
Definition carries_excess_bits (V : variant) : Prop :=
  exists v t,
    in_int64 v /\ 2 ^ value_bits V <= v
    /\ pack V v t <> pack V (v mod 2 ^ value_bits V) t
    /\ 2 ^ codeword_bits V <= uint64 (pack V v t).

(** *** Counting bits by position *)

(** Number of positions below [n] at which [x] has a one bit. *)
Fixpoint count_set_bits (n : nat) (x : Z) : Z :=
  match n with
  | O => 0
  | S k => count_set_bits k x + Z.b2z (Z.testbit x (Z.of_nat k))
  end.

(** Positions [2 .. r+1] hold the check bits. *)
Definition is_check_position (V : variant) (p : Z) : bool :=
  (2 <=? p) && (p <=? check_bits V + 1).

(** ** Package sqlite3schema: reading the schema table of SQLite

    A Go [rune] is a [Z].  [for i, ch := range nameFragment] hands the loop
    body the pairs [(i, ch)] of byte index and rune, in order; a name
    fragment is given here as that sequence of pairs.  The runes written to a
    [bytes.Buffer] are kept as a list.  An error made by [fmt.Errorf] is a
    constructor that keeps the arguments of the format. *)

Module Sqlite3schema.

Definition rune (c : ascii) : Z := Z.of_nat (nat_of_ascii c).
Arguments rune c%_char.

Inductive name_error : Type :=
| ContainsEscapeChar (ch i : Z)   (* "Name fragment contains the escape char" *)
| NotSafe (ch i : Z).             (* "Name fragment is not safe" *)

(** The body of the loop of [checkEscapeForLike]; [buf] is the buffer. *)
Fixpoint checkEscapeForLike_loop (nameFragment : list (Z * Z))
    (escapeChar : Z) (buf : list Z) : list Z * option name_error :=
  match nameFragment with
  | [] => (buf, None)
  | (i, ch) :: rest =>
      if ch =? escapeChar then ([], Some (ContainsEscapeChar ch i))
      else if (rune "a" <=? ch) && (ch <=? rune "z") then
        checkEscapeForLike_loop rest escapeChar (buf ++ [ch])
      else if (rune "0" <=? ch) && (ch <=? rune "9") then
        checkEscapeForLike_loop rest escapeChar (buf ++ [ch])
      else if ch =? rune "_" then
        checkEscapeForLike_loop rest escapeChar (buf ++ [escapeChar; ch])
      else ([], Some (NotSafe ch i))
  end.

Definition checkEscapeForLike (nameFragment : list (Z * Z))
    (escapeChar : Z) : list Z * option name_error :=
  checkEscapeForLike_loop nameFragment escapeChar [].

(** The earlier version of the file, without escaping. *)
Fixpoint checkSafeNameChars (nameFragment : list (Z * Z))
    : option name_error :=
  match nameFragment with
  | [] => None
  | (i, ch) :: rest =>
      if (rune "a" <=? ch) && (ch <=? rune "z") then checkSafeNameChars rest
      else if (rune "0" <=? ch) && (ch <=? rune "9") then
        checkSafeNameChars rest
      else if ch =? rune "_" then checkSafeNameChars rest
      else Some (NotSafe ch i)
  end.

(** [sqlschema.ElemTypeCode], an [iota] enumeration. *)
Definition NoElem : Z := 0.
Definition TableElem : Z := 1.
Definition ViewElem : Z := 2.
Definition IndexElem : Z := 3.
Definition TriggerElem : Z := 4.

Definition MaxInt32 : Z := 2 ^ 31 - 1.
Definition int32 (x : Z) : Z := (x + 2 ^ 31) mod 2 ^ 32 - 2 ^ 31.

Record ElementFound : Type := {
  ElemType : Z;
  RootPage : Z;
  Name : string;
  TableName : string;
  CreateSQL : string
}.

(** The columns [rows.Scan] fills for one row of [sqlite_master];
    [sql.NullInt64] and [sql.NullString] are options. *)
Record master_row : Type := {
  elemTypeText : string;
  elemRootPage : option Z;
  rowName : string;
  rowTableName : string;
  elemSQL : option string
}.

Inductive read_error : Type :=
| ScanFailed (msg : string)
| NegativeRootPage (page : Z) (row : master_row)
| RootPageTooBig (page : Z) (row : master_row)
| UnexpectedNullSQL (row : master_row) (page : Z)
| BadTable (row : master_row)
| BadView (row : master_row)
| UnexpectedElementType (row : master_row)
| RowsErr (msg : string).

(** One turn of the loop of [readSQLiteMasterRows], after a successful
    [rows.Scan]: the element to append, or the error to return. *)
Definition convertRow (row : master_row) : ElementFound + read_error :=
  let name := rowName row in
  let tbl := rowTableName row in
  match
    match elemRootPage row with
    | Some page =>
        if page <? 0 then inr (NegativeRootPage page row)
        else if page >=? MaxInt32 then inr (RootPageTooBig page row)
        else inl (int32 page)
    | None => inl (-1)
    end
  with
  | inr e => inr e
  | inl rootPage =>
      match
        match elemSQL row with
        | Some text => inl text
        | None =>
            if negb (String.eqb (elemTypeText row) "index"
                     && String.prefix "sqlite_autoindex_" name)
            then inr (UnexpectedNullSQL row rootPage)
            else inl EmptyString
        end
      with
      | inr e => inr e
      | inl createSQL =>
          let found ty := {| ElemType := ty; RootPage := rootPage;
                             Name := name; TableName := tbl;
                             CreateSQL := createSQL |} in
          if String.eqb (elemTypeText row) "table" then
            if negb (String.eqb name tbl) then inr (BadTable row)
            else inl (found TableElem)
          else if String.eqb (elemTypeText row) "index" then
            inl (found IndexElem)
          else if String.eqb (elemTypeText row) "view" then
            if negb (String.eqb name tbl) then inr (BadView row)
            else inl (found ViewElem)
          else if String.eqb (elemTypeText row) "trigger" then
            inl (found TriggerElem)
          else inr (UnexpectedElementType row)
      end
  end.

(** [readSQLiteMasterRows]: [rows] lists what each [rows.Next] and
    [rows.Scan] delivers, a row or the error of the scan; [rowsErr] is what
    [rows.Err] reports once [rows.Next] has returned false. *)
Fixpoint readSQLiteMasterRows_loop (rows : list (master_row + string))
    (rowsErr : option string) (result : list ElementFound)
    : list ElementFound * option read_error :=
  match rows with
  | [] =>
      match rowsErr with
      | Some msg => (result, Some (RowsErr msg))
      | None => (result, None)
      end
  | inr msg :: _ => (result, Some (ScanFailed msg))
  | inl row :: rest =>
      match convertRow row with
      | inr e => (result, Some e)
      | inl elemFound =>
          readSQLiteMasterRows_loop rest rowsErr (result ++ [elemFound])
      end
  end.

Definition readSQLiteMasterRows (rows : list (master_row + string))
    (rowsErr : option string) : list ElementFound * option read_error :=
  readSQLiteMasterRows_loop rows rowsErr [].

End Sqlite3schema.

(** *** Reading an escaped name back *)

(** A rune the name checks accept: [a-z], [0-9] or the underscore. *)
Definition safe_rune (ch : Z) : bool :=
  ((97 <=? ch) && (ch <=? 122)) || ((48 <=? ch) && (ch <=? 57)) || (ch =? 95).

(** What a LIKE pattern with [ESCAPE] stands for: the escape character makes
    the next character literal.  [None] when the pattern holds a bare
    underscore or percent sign, or ends in the escape character. *)
Fixpoint like_literal (esc : Z) (pattern : list Z) : option (list Z) :=
  match pattern with
  | [] => Some []
  | c :: rest =>
      if c =? esc then
        match rest with
        | [] => None
        | d :: rest' => option_map (cons d) (like_literal esc rest')
        end
      else if (c =? 95) || (c =? 37) then None
      else option_map (cons c) (like_literal esc rest)
  end.

(** A rune [checkEscapeForLike] lets through for escape character [esc]. *)
Definition passes (esc : Z) (item : Z * Z) : Prop :=
  safe_rune (snd item) = true /\ snd item <> esc.

(** The element [readSQLiteMasterRows] makes of a row it accepts. *)
Definition element_of_row (row : Sqlite3schema.master_row)
    (e : Sqlite3schema.ElementFound) : Prop :=
  Sqlite3schema.Name e = Sqlite3schema.rowName row
  /\ Sqlite3schema.TableName e = Sqlite3schema.rowTableName row
  /\ Sqlite3schema.RootPage e
     = match Sqlite3schema.elemRootPage row with
       | Some page => page
       | None => -1
       end
  /\ Sqlite3schema.CreateSQL e
     = match Sqlite3schema.elemSQL row with
       | Some text => text
       | None => EmptyString
       end
  /\ ((Sqlite3schema.elemTypeText row = "table"%string
       /\ Sqlite3schema.ElemType e = Sqlite3schema.TableElem)
      \/ (Sqlite3schema.elemTypeText row = "index"%string
          /\ Sqlite3schema.ElemType e = Sqlite3schema.IndexElem)
      \/ (Sqlite3schema.elemTypeText row = "view"%string
          /\ Sqlite3schema.ElemType e = Sqlite3schema.ViewElem)
      \/ (Sqlite3schema.elemTypeText row = "trigger"%string
          /\ Sqlite3schema.ElemType e = Sqlite3schema.TriggerElem)).

(** The rows [readSQLiteMasterRows] accepts. *)
Definition accepted_row (row : Sqlite3schema.master_row) : Prop :=
  match Sqlite3schema.elemRootPage row with
  | Some page => 0 <= page < Sqlite3schema.MaxInt32
  | None => True
  end
  /\ (Sqlite3schema.elemSQL row = None ->
      Sqlite3schema.elemTypeText row = "index"%string
      /\ String.prefix "sqlite_autoindex_" (Sqlite3schema.rowName row) = true)
  /\ (Sqlite3schema.elemTypeText row = "table"%string
      \/ Sqlite3schema.elemTypeText row = "view"%string ->
      Sqlite3schema.rowName row = Sqlite3schema.rowTableName row)
  /\ (Sqlite3schema.elemTypeText row = "table"%string
      \/ Sqlite3schema.elemTypeText row = "index"%string
      \/ Sqlite3schema.elemTypeText row = "view"%string
      \/ Sqlite3schema.elemTypeText row = "trigger"%string).

(** What every element returned by [readSQLiteMasterRows] satisfies. *)
Definition well_formed_element (e : Sqlite3schema.ElementFound) : Prop :=
  -1 <= Sqlite3schema.RootPage e < Sqlite3schema.MaxInt32
  /\ Sqlite3schema.TableElem <= Sqlite3schema.ElemType e
     <= Sqlite3schema.TriggerElem
  /\ (Sqlite3schema.ElemType e = Sqlite3schema.TableElem
      \/ Sqlite3schema.ElemType e = Sqlite3schema.ViewElem ->
      Sqlite3schema.Name e = Sqlite3schema.TableName e).

(** Sample rows: a table with its automatic index, and a view followed by
    a row with a negative root page. *)
Definition sample_rows : list (Sqlite3schema.master_row + string) :=
  [inl {| Sqlite3schema.elemTypeText := "table";
          Sqlite3schema.elemRootPage := Some 2;
          Sqlite3schema.rowName := "t1";
          Sqlite3schema.rowTableName := "t1";
          Sqlite3schema.elemSQL := Some "CREATE TABLE t1(x)"%string |};
   inl {| Sqlite3schema.elemTypeText := "index";
          Sqlite3schema.elemRootPage := Some 3;
          Sqlite3schema.rowName := "sqlite_autoindex_t1_1";
          Sqlite3schema.rowTableName := "t1";
          Sqlite3schema.elemSQL := None |}].

Definition sample_rows_bad_page : list (Sqlite3schema.master_row + string) :=
  [inl {| Sqlite3schema.elemTypeText := "view";
          Sqlite3schema.elemRootPage := None;
          Sqlite3schema.rowName := "v1";
          Sqlite3schema.rowTableName := "v1";
          Sqlite3schema.elemSQL := Some "CREATE VIEW v1 AS SELECT 1"%string |};
   inl {| Sqlite3schema.elemTypeText := "table";
          Sqlite3schema.elemRootPage := Some (-5);
          Sqlite3schema.rowName := "t2";
          Sqlite3schema.rowTableName := "t2";
          Sqlite3schema.elemSQL := Some "CREATE TABLE t2(y)"%string |}].

(** ** Foundations: population count and parity *)

Lemma uint64_land (x : Z) : uint64 x = Z.land x (Z.ones 64).
Proof. unfold uint64. now rewrite Z.land_ones by lia. Qed.

Lemma uint8_land (x : Z) : uint8 x = Z.land x (Z.ones 8).
Proof. unfold uint8. now rewrite Z.land_ones by lia. Qed.

Lemma uint64_range (x : Z) : 0 <= uint64 x < 2 ^ 64.
Proof. unfold uint64. apply Z.mod_pos_bound. lia. Qed.

Lemma uint64_small (x : Z) : 0 <= x < 2 ^ 64 -> uint64 x = x.
Proof. intros H. unfold uint64. now apply Z.mod_small. Qed.

Lemma uint64_int64 (x : Z) : uint64 (int64 x) = uint64 x.
Proof.
  unfold uint64, int64.
  rewrite Zminus_mod_idemp_l.
  f_equal. lia.
Qed.

Lemma int64_range (x : Z) : in_int64 (int64 x).
Proof.
  unfold in_int64, int64.
  pose proof (Z.mod_pos_bound (x + 2 ^ 63) (2 ^ 64)). lia.
Qed.

Lemma int64_small (x : Z) : in_int64 x -> int64 x = x.
Proof.
  unfold in_int64, int64. intros H.
  rewrite Z.mod_small; lia.
Qed.

Lemma Zseq_forall (n : nat) (f : Z -> bool) :
  forallb f (Zseq n) = true ->
  forall p, 0 <= p < Z.of_nat n -> f p = true.
Proof.
  unfold Zseq. intros H p Hp.
  rewrite forallb_forall in H. apply H.
  apply in_map_iff. exists (Z.to_nat p). split; [lia|].
  apply in_seq. lia.
Qed.

Lemma Zseq_forall2 (n : nat) (f : Z -> Z -> bool) :
  forallb (fun p => forallb (f p) (Zseq n)) (Zseq n) = true ->
  forall p q, 0 <= p < Z.of_nat n -> 0 <= q < Z.of_nat n -> f p q = true.
Proof.
  intros H p q Hp Hq.
  apply (Zseq_forall n (f p)); auto.
  apply (Zseq_forall n (fun p => forallb (f p) (Zseq n))); auto.
Qed.

Lemma returns_true (n c : Z) (o : outcome (Z * Z)) :
  returns n c o = true -> o = Ok (n, c).
Proof.
  destruct o as [[n' c']|]; cbn [returns]; [|discriminate].
  intros H. apply andb_prop in H as [H1 H2].
  apply Z.eqb_eq in H1, H2. now subst.
Qed.

(** Bitwise identities are proved bit by bit. *)
Ltac bitwise :=
  apply Z.bits_inj'; intros ?i ?Hi;
  repeat rewrite ?Z.land_spec, ?Z.lxor_spec, ?Z.lor_spec;
  repeat match goal with
         | |- context [Z.testbit ?a ?i] =>
             is_var a; destruct (Z.testbit a i)
         end;
  simpl; auto with bool.

Lemma land_lxor_distr_l (a b m : Z) :
  Z.land (Z.lxor a b) m = Z.lxor (Z.land a m) (Z.land b m).
Proof. bitwise; now destruct (Z.testbit m i). Qed.

Lemma lxor_swap (a b c d : Z) :
  Z.lxor (Z.lxor a b) (Z.lxor c d) = Z.lxor (Z.lxor a c) (Z.lxor b d).
Proof. bitwise. Qed.

Lemma land_disjoint (p c l : Z) :
  Z.land p l = 0 -> Z.land c l = c -> Z.land p c = 0.
Proof.
  intros Hp Hc. rewrite <- Hc.
  rewrite (Z.land_comm c l), Z.land_assoc, Hp. apply Z.land_0_l.
Qed.

Lemma uint64_lxor (a b : Z) :
  uint64 (Z.lxor a b) = Z.lxor (uint64 a) (uint64 b).
Proof. rewrite !uint64_land. apply land_lxor_distr_l. Qed.

Lemma uint8_lxor (a b : Z) :
  uint8 (Z.lxor a b) = Z.lxor (uint8 a) (uint8 b).
Proof. rewrite !uint8_land. apply land_lxor_distr_l. Qed.

Lemma land_uint64_range (x m : Z) : 0 <= Z.land (uint64 x) m < 2 ^ 64.
Proof.
  assert (E : Z.land (uint64 x) m = uint64 (Z.land x m)).
  { rewrite !uint64_land. bitwise; now destruct (Z.testbit (Z.ones 64) i). }
  rewrite E. apply uint64_range.
Qed.

Lemma land_double_odd (a b : Z) :
  Z.land (2 * a) (2 * b + 1) = 2 * Z.land a b.
Proof.
  apply Z.bits_inj'; intros i Hi.
  rewrite Z.land_spec.
  destruct (Z.eq_dec i 0) as [->|Hne].
  - now rewrite !Z.testbit_even_0.
  - replace i with (Z.succ (i - 1)) by lia.
    rewrite !Z.testbit_even_succ, Z.testbit_odd_succ by lia.
    now rewrite Z.land_spec.
Qed.

Lemma land_odd_double (a b : Z) :
  Z.land (2 * a + 1) (2 * b) = 2 * Z.land a b.
Proof. rewrite Z.land_comm, land_double_odd. now rewrite Z.land_comm. Qed.

Lemma Pos_popcount_pos (p : positive) : 1 <= Pos_popcount p.
Proof. induction p; cbn [Pos_popcount]; lia. Qed.

Lemma popcount_nonneg (x : Z) : 0 <= popcount x.
Proof. destruct x; simpl; try lia. pose proof (Pos_popcount_pos p). lia. Qed.

Lemma popcount_double (x : Z) : popcount (2 * x) = popcount x.
Proof. now destruct x. Qed.

Lemma popcount_zero (x : Z) : 0 <= x -> popcount x = 0 -> x = 0.
Proof.
  destruct x; simpl; try lia.
  pose proof (Pos_popcount_pos p). lia.
Qed.

(** One iteration of the loop clears the lowest set bit. *)
Lemma clear_lowest_bit (p : positive) :
  let y := Z.land (Zpos p) (Zpos p - 1) in
  0 <= y <= Zpos p /\ popcount y + 1 = Pos_popcount p.
Proof.
  induction p as [q IH|q IH|]; cbn zeta in *.
  - assert (E : Z.land (Z.pos q~1) (Z.pos q~1 - 1) = 2 * Z.pos q).
    { replace (Z.pos q~1 - 1) with (2 * Z.pos q) by lia.
      replace (Z.pos q~1) with (2 * Z.pos q + 1) by lia.
      now rewrite land_odd_double, Z.land_diag. }
    rewrite E, popcount_double. cbn [popcount Pos_popcount]. lia.
  - assert (E : Z.land (Z.pos q~0) (Z.pos q~0 - 1)
                = 2 * Z.land (Z.pos q) (Z.pos q - 1)).
    { replace (Z.pos q~0 - 1) with (2 * (Z.pos q - 1) + 1) by lia.
      replace (Z.pos q~0) with (2 * Z.pos q) by lia.
      apply land_double_odd. }
    rewrite E, popcount_double. cbn [Pos_popcount]. lia.
  - simpl. lia.
Qed.

Lemma Pos_popcount_bound (p : positive) :
  forall n : nat, Zpos p < 2 ^ Z.of_nat n -> Pos_popcount p <= Z.of_nat n.
Proof.
  induction p as [q IH|q IH|]; intros n Hn; cbn [Pos_popcount].
  - destruct n as [|m]; [simpl in Hn; lia|].
    rewrite Nat2Z.inj_succ, Z.pow_succ_r in Hn by lia.
    specialize (IH m). lia.
  - destruct n as [|m]; [simpl in Hn; lia|].
    rewrite Nat2Z.inj_succ, Z.pow_succ_r in Hn by lia.
    specialize (IH m). lia.
  - destruct n; [simpl in Hn; lia | lia].
Qed.

Lemma popcount_bound (x : Z) : 0 <= x < 2 ^ 64 -> popcount x <= 64.
Proof.
  destruct x; simpl; try lia. intros H.
  apply (Pos_popcount_bound p 64). simpl Z.of_nat. lia.
Qed.

(** The loop leaves through its exit condition once the fuel covers the
    number of one bits, and has then counted them. *)
Lemma onesCount64_loop_spec (fuel : nat) :
  forall x n, 0 <= x < 2 ^ 64 -> popcount x <= Z.of_nat fuel ->
    onesCount64_loop fuel x n = (0, n + popcount x).
Proof.
  induction fuel as [|f IH]; intros x n Hx Hp; cbn [onesCount64_loop].
  - assert (x = 0) by (apply popcount_zero; simpl in Hp;
                       pose proof (popcount_nonneg x); lia).
    subst. cbn [popcount]. f_equal. lia.
  - destruct (Z.eqb_spec x 0) as [->|Hne].
    + cbn [popcount]. f_equal. lia.
    + destruct x as [|p|p]; try lia.
      pose proof (clear_lowest_bit p) as [Hy Hc]. cbn zeta in *.
      rewrite uint64_small by lia.
      rewrite Nat2Z.inj_succ in Hp. cbn [popcount] in *.
      rewrite IH; [f_equal; lia | lia | lia].
Qed.

Lemma onesCount64_loop_exit (x : Z) :
  0 <= x < 2 ^ 64 -> onesCount64_loop 64 x 0 = (0, popcount x).
Proof.
  intros Hx. rewrite onesCount64_loop_spec; auto.
  apply popcount_bound in Hx. simpl Z.of_nat. lia.
Qed.

Lemma onesCount64_popcount (x : Z) :
  0 <= x < 2 ^ 64 -> onesCount64 x = popcount x.
Proof. intros Hx. unfold onesCount64. now rewrite onesCount64_loop_exit. Qed.

Lemma land_1_odd (x : Z) : Z.land x 1 = Z.b2z (Z.odd x).
Proof.
  change 1 with (Z.ones 1). rewrite Z.land_ones by lia.
  rewrite <- Z.bit0_odd. symmetry. apply Z.bit0_mod.
Qed.

Lemma computeParity_mask (m w : Z) :
  computeParity (Z.land (uint64 w) m) = Z.b2z (mask_parity m w).
Proof.
  unfold computeParity, mask_parity.
  rewrite onesCount64_popcount by apply land_uint64_range.
  apply land_1_odd.
Qed.

Lemma computeParityInt64_word (w : Z) :
  computeParityInt64 w = Z.b2z (word_parity w).
Proof.
  unfold computeParityInt64, word_parity.
  rewrite onesCount64_popcount by apply uint64_range.
  apply land_1_odd.
Qed.

(** Parity is additive over exclusive or. *)
Lemma popcount_N_double (n : N) :
  popcount (Z.of_N (N.double n)) = popcount (Z.of_N n).
Proof. now destruct n. Qed.

Lemma popcount_N_succ_double (n : N) :
  popcount (Z.of_N (N.succ_double n)) = 1 + popcount (Z.of_N n).
Proof. destruct n; reflexivity. Qed.

Lemma Pos_popcount_lxor (p : positive) :
  forall q,
    Z.odd (popcount (Z.of_N (Pos.lxor p q)))
    = xorb (Z.odd (Pos_popcount p)) (Z.odd (Pos_popcount q)).
Proof.
  induction p as [p' IH|p' IH|]; intros [q'|q'|];
    cbn [Pos.lxor Pos_popcount];
    rewrite ?popcount_N_double, ?popcount_N_succ_double;
    cbn [Z.of_N popcount Pos_popcount];
    rewrite ?Z.odd_add, ?IH; cbn [Z.odd];
    repeat match goal with
           | |- context [Z.odd (Pos_popcount ?x)] =>
               destruct (Z.odd (Pos_popcount x))
           end; reflexivity.
Qed.

Lemma popcount_lxor (a b : Z) :
  0 <= a -> 0 <= b ->
  Z.odd (popcount (Z.lxor a b))
  = xorb (Z.odd (popcount a)) (Z.odd (popcount b)).
Proof.
  intros Ha Hb.
  destruct a as [|p|p]; try lia; destruct b as [|q|q]; try lia;
    cbn [Z.lxor popcount Z.odd]; try reflexivity.
  - now rewrite xorb_false_r.
  - apply Pos_popcount_lxor.
Qed.

Lemma mask_parity_lxor (m a b : Z) :
  mask_parity m (Z.lxor a b) = xorb (mask_parity m a) (mask_parity m b).
Proof.
  unfold mask_parity.
  rewrite uint64_lxor, land_lxor_distr_l.
  apply popcount_lxor; apply land_uint64_range.
Qed.

Lemma word_parity_lxor (a b : Z) :
  word_parity (Z.lxor a b) = xorb (word_parity a) (word_parity b).
Proof.
  unfold word_parity. rewrite uint64_lxor.
  apply popcount_lxor; apply uint64_range.
Qed.

Lemma computeParityInt64_bit (w : Z) :
  computeParityInt64 w = 0 \/ computeParityInt64 w = 1.
Proof. rewrite computeParityInt64_word. destruct (word_parity w); auto. Qed.

Lemma computeParityInt64_lxor (a b : Z) :
  computeParityInt64 (Z.lxor a b)
  = Z.lxor (computeParityInt64 a) (computeParityInt64 b).
Proof.
  rewrite !computeParityInt64_word, word_parity_lxor.
  now destruct (word_parity a), (word_parity b).
Qed.

(** ** The decoder as a linear code

    Everything [Correct] looks at, the overall parity and the syndrome, is
    additive over exclusive or.  A property of all words then follows from
    the same property of the few error patterns. *)

Section EngineTheory.
Variable get : Z -> Z.
Variable cb : Z -> Z.
Variable map_pos : Z -> outcome (Z * bool).

Hypothesis get_lxor : forall a b, get (Z.lxor a b) = Z.lxor (get a) (get b).
Hypothesis cb_lxor : forall a b, cb (Z.lxor a b) = Z.lxor (cb a) (cb b).

Let syn := syndrome_of get cb.
Let dec := correct_with get cb map_pos.
Let ok := valid get cb.

Lemma syndrome_of_lxor (a b : Z) : syn (Z.lxor a b) = Z.lxor (syn a) (syn b).
Proof.
  unfold syn, syndrome_of.
  now rewrite get_lxor, cb_lxor, lxor_swap, Z.shiftr_lxor.
Qed.

Lemma valid_lxor_parity (w e : Z) :
  ok w -> computeParityInt64 (Z.lxor w e) = computeParityInt64 e.
Proof.
  intros [Hp _]. now rewrite computeParityInt64_lxor, Hp, Z.lxor_0_l.
Qed.

Lemma valid_lxor_syndrome (w e : Z) : ok w -> syn (Z.lxor w e) = syn e.
Proof.
  intros [_ Hs]. fold syn in Hs. now rewrite syndrome_of_lxor, Hs, Z.lxor_0_l.
Qed.

Lemma correct_valid (w : Z) : ok w -> dec w = Ok (0, w).
Proof.
  intros [Hp Hs]. unfold dec, correct_with. now rewrite Hp, Hs.
Qed.

(** An error pattern [e] is treated the same on top of every valid word. *)
Lemma correct_one_translate (w e c : Z) :
  ok w -> dec e = Ok (1, c) -> dec (Z.lxor w e) = Ok (1, Z.lxor w c).
Proof.
  intros Hw. unfold dec, correct_with. fold syn.
  rewrite (valid_lxor_parity w e Hw), (valid_lxor_syndrome w e Hw).
  destruct (computeParityInt64 e =? 0).
  - destruct (syn e =? 0); discriminate.
  - destruct (syn e =? 0).
    + intros [= <-]. now rewrite Z.lxor_assoc.
    + destruct (map_pos (syn e)) as [r|msg]; cbn [bind]; [|discriminate].
      intros [= <-]. now rewrite Z.lxor_assoc.
Qed.

Lemma correct_two_translate (w e c : Z) :
  ok w -> dec e = Ok (2, c) -> dec (Z.lxor w e) = Ok (2, 0).
Proof.
  intros Hw. unfold dec, correct_with. fold syn.
  rewrite (valid_lxor_parity w e Hw), (valid_lxor_syndrome w e Hw).
  destruct (computeParityInt64 e =? 0).
  - destruct (syn e =? 0); [discriminate | reflexivity].
  - destruct (syn e =? 0); [discriminate|].
    destruct (map_pos (syn e)); cbn [bind]; discriminate.
Qed.

(** Single errors. *)
Lemma correct_single (n : nat) :
  forallb (fun p => returns 1 0 (dec (bit_at p))) (Zseq n) = true ->
  forall w p, ok w -> 0 <= p < Z.of_nat n ->
    dec (Z.lxor w (bit_at p)) = Ok (1, w).
Proof.
  intros Hall w p Hw Hp.
  apply Zseq_forall with (p := p) in Hall; [|assumption].
  apply returns_true in Hall.
  rewrite <- (Z.lxor_0_r w) at 2.
  now apply correct_one_translate.
Qed.

(** Double errors. *)
Lemma correct_double (n : nat) :
  forallb (fun p =>
    forallb (fun q =>
      (p =? q) || returns 2 0 (dec (Z.lxor (bit_at p) (bit_at q))))
      (Zseq n)) (Zseq n) = true ->
  forall w p q, ok w -> 0 <= p < Z.of_nat n -> 0 <= q < Z.of_nat n ->
    p <> q ->
    dec (Z.lxor (Z.lxor w (bit_at p)) (bit_at q)) = Ok (2, 0).
Proof.
  intros Hall w p q Hw Hp Hq Hne.
  pose proof (Zseq_forall2 n _ Hall p q Hp Hq) as H.
  apply orb_prop in H as [H|H]; [apply Z.eqb_eq in H; contradiction|].
  apply returns_true in H.
  rewrite Z.lxor_assoc.
  now apply correct_two_translate with (c := 0).
Qed.

(** No panic, and repair lands on a valid word. *)
Section Total.
Variable smax : nat.
Hypothesis syn_range : forall w, 0 <= syn w < Z.of_nat smax.
Hypothesis map_sound :
  forallb (fun s =>
    (s =? 0) || match map_pos s with
                | Ok r => (computeParityInt64 (bit_at (fst r)) =? 1)
                          && (syn (bit_at (fst r)) =? s)
                | Panic _ => false
                end) (Zseq smax) = true.
Hypothesis parity_bit_sound :
  computeParityInt64 (int64 (Z.shiftl 1 globalParityBitp)) = 1
  /\ syn (int64 (Z.shiftl 1 globalParityBitp)) = 0.

Lemma map_pos_sound (w : Z) :
  syn w <> 0 ->
  exists r, map_pos (syn w) = Ok r
            /\ computeParityInt64 (bit_at (fst r)) = 1
            /\ syn (bit_at (fst r)) = syn w.
Proof.
  intros Hne.
  pose proof (Zseq_forall smax _ map_sound (syn w) (syn_range w)) as H.
  cbv beta in H.
  destruct (Z.eqb_spec (syn w) 0); [contradiction|]. cbn [orb] in H.
  destruct (map_pos (syn w)) as [r|]; [|discriminate].
  apply andb_prop in H as [H1 H2].
  exists r. repeat split; lia.
Qed.

Lemma correct_total (w : Z) :
  exists n c, dec w = Ok (n, c) /\ (n = 0 \/ n = 1 \/ n = 2).
Proof.
  unfold dec, correct_with. fold syn.
  destruct (computeParityInt64 w =? 0).
  - destruct (syn w =? 0); eauto 6.
  - destruct (Z.eqb_spec (syn w) 0); eauto 6.
    destruct (map_pos_sound w) as (r & -> & _); auto.
    cbn [bind]. eauto 6.
Qed.

Lemma correct_repair_valid (w x : Z) :
  dec w = Ok (1, x) -> dec x = Ok (0, x).
Proof.
  unfold dec at 1, correct_with. fold syn.
  destruct (Z.eqb_spec (computeParityInt64 w) 0) as [Hp|Hp].
  - destruct (syn w =? 0); discriminate.
  - assert (Hp1 : computeParityInt64 w = 1)
      by (destruct (computeParityInt64_bit w); [contradiction|assumption]).
    destruct parity_bit_sound as [Hgp Hgs].
    destruct (Z.eqb_spec (syn w) 0) as [Hs|Hs].
    + intros E.
      assert (x = Z.lxor w (int64 (Z.shiftl 1 globalParityBitp)))
        by congruence.
      subst x. apply correct_valid. split.
      * now rewrite computeParityInt64_lxor, Hp1, Hgp.
      * fold syn. now rewrite syndrome_of_lxor, Hs, Hgs.
    + destruct (map_pos_sound w Hs) as (r & -> & Hrp & Hrs).
      cbn [bind]. intros E.
      assert (x = Z.lxor w (bit_at (fst r))) by (unfold bit_at; congruence).
      subst x. apply correct_valid. split.
      * now rewrite computeParityInt64_lxor, Hp1, Hrp.
      * fold syn. rewrite syndrome_of_lxor, Hrs. apply Z.lxor_nilpotent.
Qed.
End Total.
End EngineTheory.

(** ** The encoder produces valid words *)

Lemma int64_testbit (x i : Z) :
  0 <= i < 64 -> Z.testbit (int64 x) i = Z.testbit x i.
Proof.
  intros Hi.
  rewrite <- (Z.mod_pow2_bits_low (int64 x) 64 i) by lia.
  rewrite <- (Z.mod_pow2_bits_low x 64 i) by lia.
  change (int64 x mod 2 ^ 64) with (uint64 (int64 x)).
  now rewrite uint64_int64.
Qed.

Lemma land_upper_bound (w m : Z) : 0 <= m -> 0 <= Z.land w m <= m.
Proof.
  intros Hm.
  assert (D : Z.land (Z.land w m) (Z.ldiff m w) = 0).
  { apply Z.bits_inj'; intros i Hi.
    rewrite !Z.land_spec, Z.ldiff_spec, Z.bits_0.
    now destruct (Z.testbit w i), (Z.testbit m i). }
  assert (U : Z.lor (Z.land w m) (Z.ldiff m w) = m).
  { apply Z.bits_inj'; intros i Hi.
    rewrite Z.lor_spec, Z.land_spec, Z.ldiff_spec.
    now destruct (Z.testbit w i), (Z.testbit m i). }
  pose proof (Z.add_nocarry_lxor _ _ D) as A.
  rewrite (Z.lxor_lor _ _ D), U in A.
  assert (0 <= Z.land w m) by (apply Z.land_nonneg; auto).
  assert (0 <= Z.ldiff m w) by (apply Z.ldiff_nonneg; auto).
  lia.
Qed.

Lemma lxor_range (k a b : Z) :
  0 <= k -> 0 <= a < 2 ^ k -> 0 <= b < 2 ^ k -> 0 <= Z.lxor a b < 2 ^ k.
Proof.
  intros Hk Ha Hb.
  assert (E : Z.lxor a b = Z.lxor a b mod 2 ^ k).
  { rewrite <- Z.land_ones, land_lxor_distr_l, !Z.land_ones by lia.
    now rewrite !Z.mod_small by lia. }
  rewrite E. apply Z.mod_pos_bound. lia.
Qed.

Lemma uint8_small (x : Z) : 0 <= x < 2 ^ 8 -> uint8 x = x.
Proof. intros H. unfold uint8. now apply Z.mod_small. Qed.

Lemma reserved_mask_spec (sh i : Z) :
  1 <= sh -> 0 <= i ->
  Z.testbit (reserved_mask sh) i = (1 <=? i) && (i <? sh).
Proof.
  intros Hsh Hi. unfold reserved_mask.
  rewrite Z.shiftl_spec by lia.
  destruct (Z.leb_spec 1 i); cbn [andb].
  - rewrite Z.testbit_ones_nonneg by lia.
    destruct (Z.ltb_spec (i - 1) (sh - 1)), (Z.ltb_spec i sh); auto; lia.
  - apply Z.testbit_neg_r. lia.
Qed.

(** The word [inputVal<<sh | tagBit&1] has its reserved bits clear. *)
Lemma packed_reserved_clear (sh v t : Z) :
  1 <= sh <= 64 ->
  Z.land (Z.lor (int64 (Z.shiftl v sh)) (Z.land t 1)) (reserved_mask sh) = 0.
Proof.
  intros Hsh. apply Z.bits_inj'; intros i Hi.
  rewrite Z.land_spec, Z.lor_spec, Z.land_spec, Z.bits_0.
  rewrite reserved_mask_spec by lia.
  destruct (Z.leb_spec 1 i); [|now rewrite andb_false_r].
  destruct (Z.ltb_spec i sh); [|now rewrite andb_false_r].
  rewrite int64_testbit by lia.
  rewrite Z.shiftl_spec_low by lia.
  assert (Z.testbit 1 i = false) as ->
    by (change 1 with (Z.ones 1); apply Z.ones_spec_high; lia).
  now rewrite andb_false_r.
Qed.

Section PackTheory.
Variable get : Z -> Z.
Variable cb : Z -> Z.
Variable sh : Z.
Variable smax : nat.

Hypothesis get_lxor : forall a b, get (Z.lxor a b) = Z.lxor (get a) (get b).
Hypothesis cb_lxor : forall a b, cb (Z.lxor a b) = Z.lxor (cb a) (cb b).
Hypothesis sh_range : 1 <= sh <= 64.
(** The computed check bits sit in the check-bit field. *)
Hypothesis cb_field :
  forall w, 0 <= cb w < 4 * Z.of_nat smax /\ cb w mod 4 = 0.
(** The stored check bits of a word with clear reserved bits are zero. *)
Hypothesis get_reserved :
  forall w, Z.land w (reserved_mask sh) = 0 -> get w = 0.
(** Words made of check bits only: they are not inputs of the code. *)
Hypothesis field_words :
  forallb (fun s =>
    (cb (4 * s) =? 0) && (get (4 * s) =? 4 * s)
    && (Z.land (4 * s) (reserved_mask sh) =? 4 * s)
    && (Z.land (4 * s) 2 =? 0)) (Zseq smax) = true.
(** The global parity bit: not an input of the code either. *)
Hypothesis parity_word :
  cb 2 = 0 /\ get 2 = 0 /\ Z.land 2 (reserved_mask sh) = 2.

Let syn := syndrome_of get cb.

Lemma with_check_bits_syndrome (p : Z) :
  Z.land p (reserved_mask sh) = 0 ->
  Z.lor p (cb p) = Z.lxor p (cb p)
  /\ syn (Z.lor p (cb p)) = 0
  /\ Z.land (Z.lor p (cb p)) 2 = 0.
Proof.
  intros Hp.
  destruct (cb_field p) as [Hr Hm].
  assert (Hs : 0 <= cb p / 4 < Z.of_nat smax)
    by (split; [apply Z.div_pos | apply Z.div_lt_upper_bound]; lia).
  assert (E : cb p = 4 * (cb p / 4))
    by (pose proof (Z.div_mod (cb p) 4); lia).
  pose proof (Zseq_forall smax _ field_words _ Hs) as F. cbv beta in F.
  rewrite <- E in F.
  apply andb_prop in F as [F F4]. apply andb_prop in F as [F F3].
  apply andb_prop in F as [F1 F2].
  apply Z.eqb_eq in F1, F2, F3, F4.
  assert (D : Z.land p (cb p) = 0) by (eapply land_disjoint; eauto).
  rewrite <- (Z.lxor_lor _ _ D).
  repeat split.
  - unfold syn, syndrome_of.
    rewrite cb_lxor, get_lxor, F1, F2, (get_reserved p Hp).
    rewrite Z.lxor_0_r, Z.lxor_0_l, Z.lxor_nilpotent. reflexivity.
  - rewrite land_lxor_distr_l, F4.
    destruct parity_word as (_ & _ & H2).
    rewrite (land_disjoint p 2 _ Hp H2). reflexivity.
Qed.

Hypothesis parity_of_two : computeParityInt64 2 = 1.

Lemma pack_with_valid (v t : Z) : valid get cb (pack_with cb sh v t).
Proof.
  unfold pack_with.
  set (p := Z.lor (int64 (Z.shiftl v sh)) (Z.land t 1)).
  pose proof (packed_reserved_clear sh v t sh_range) as Hp. fold p in Hp.
  destruct (with_check_bits_syndrome p Hp) as (_ & Hs & H2).
  set (u := Z.lor p (cb p)) in *.
  destruct parity_word as (C2 & G2 & _).
  destruct (computeParityInt64_bit u) as [Hu|Hu]; rewrite Hu.
  - change (Z.shiftl (Z.land 0 1) globalParityBitp) with 0.
    rewrite Z.lor_0_r. now split.
  - change (Z.shiftl (Z.land 1 1) globalParityBitp) with 2.
    rewrite <- (Z.lxor_lor _ _ H2). split.
    + now rewrite computeParityInt64_lxor, Hu, parity_of_two.
    + unfold syn in Hs. rewrite syndrome_of_lxor by assumption. rewrite Hs.
      unfold syndrome_of. now rewrite C2, G2.
Qed.
End PackTheory.

(** ** The three packages are instances of the engine *)

Ltac unfold_check_bits :=
  cbv beta iota zeta delta
    [Hamming4.computeHammingCheckBits Hamming11.computeHammingCheckBits
     Hamming57.computeHammingCheckBits check_of];
  rewrite ?computeParity_mask.

Ltac case_mask_parities :=
  repeat match goal with
         | |- context [mask_parity ?m ?w] =>
             generalize (mask_parity m w); intros [|]
         end.

Lemma check_of_lxor (V : variant) (a b : Z) :
  check_of V (Z.lxor a b) = Z.lxor (check_of V a) (check_of V b).
Proof.
  destruct V; unfold_check_bits; rewrite ?mask_parity_lxor;
    case_mask_parities; reflexivity.
Qed.

Lemma get_of_lxor (V : variant) (a b : Z) :
  get_of V (Z.lxor a b) = Z.lxor (get_of V a) (get_of V b).
Proof.
  destruct V; cbv [get_of Hamming4.getHammingCheckBits
                   Hamming11.getHammingCheckBits Hamming57.getHammingCheckBits];
    now rewrite land_lxor_distr_l, uint8_lxor.
Qed.

Lemma check_of_field (V : variant) (w : Z) :
  0 <= check_of V w < 4 * Z.of_nat (syndromes V) /\ check_of V w mod 4 = 0.
Proof.
  destruct V; unfold_check_bits; case_mask_parities;
    vm_compute; intuition congruence.
Qed.

Lemma get_of_range (V : variant) (w : Z) :
  0 <= get_of V w < 4 * Z.of_nat (syndromes V).
Proof.
  destruct V; cbv [get_of Hamming4.getHammingCheckBits
                   Hamming11.getHammingCheckBits Hamming57.getHammingCheckBits];
    match goal with
    | |- context [Z.land w ?m] =>
        pose proof (land_upper_bound w m ltac:(lia)) as H
    end;
    rewrite uint8_small by lia;
    change (4 * Z.of_nat (syndromes VariantA)) with 32;
    change (4 * Z.of_nat (syndromes VariantB)) with 64;
    change (4 * Z.of_nat (syndromes VariantC)) with 256; lia.
Qed.

Lemma get_of_reserved (V : variant) (w : Z) :
  Z.land w (reserved_mask (value_shift V)) = 0 -> get_of V w = 0.
Proof.
  intros Hw.
  destruct V; cbv [get_of Hamming4.getHammingCheckBits
                   Hamming11.getHammingCheckBits Hamming57.getHammingCheckBits];
    match goal with
    | |- context [Z.land w ?m] =>
        rewrite (land_disjoint w m _ Hw) by reflexivity
    end; reflexivity.
Qed.

Lemma field_words_ok (V : variant) :
  forallb (fun s =>
    (check_of V (4 * s) =? 0) && (get_of V (4 * s) =? 4 * s)
    && (Z.land (4 * s) (reserved_mask (value_shift V)) =? 4 * s)
    && (Z.land (4 * s) 2 =? 0)) (Zseq (syndromes V)) = true.
Proof. destruct V; vm_compute; reflexivity. Qed.

Lemma parity_word_ok (V : variant) :
  check_of V 2 = 0 /\ get_of V 2 = 0
  /\ Z.land 2 (reserved_mask (value_shift V)) = 2.
Proof. destruct V; vm_compute; auto. Qed.

Lemma value_shift_range (V : variant) : 1 <= value_shift V <= 64.
Proof. destruct V; vm_compute; intuition congruence. Qed.

Lemma pack_engine (V : variant) (v t : Z) :
  pack V v t = pack_with (check_of V) (value_shift V) v t.
Proof.
  destruct V;
    cbv beta iota zeta delta
      [pack pack_with check_of value_shift Hamming4.PackWithCheckBits
       Hamming11.PackWithCheckBits Hamming57.PackWithCheckBits];
    reflexivity.
Qed.

Lemma correct_engine (V : variant) (w : Z) :
  correct V w = correct_with (get_of V) (check_of V) (syndrome_map V) w.
Proof.
  destruct V;
    cbv beta iota zeta delta
      [correct correct_with syndrome_of get_of check_of syndrome_map
       Hamming4.Correct Hamming11.Correct Hamming57.Correct];
    reflexivity.
Qed.

(** Every packed word is valid: even overall parity and zero syndrome. *)
Lemma pack_valid (V : variant) (v t : Z) : valid_word V (pack V v t).
Proof.
  rewrite pack_engine.
  apply pack_with_valid with (smax := syndromes V).
  - apply get_of_lxor.
  - apply check_of_lxor.
  - apply value_shift_range.
  - apply check_of_field.
  - apply get_of_reserved.
  - apply field_words_ok.
  - apply parity_word_ok.
  - reflexivity.
Qed.

Lemma syndrome_range (V : variant) (w : Z) :
  0 <= syndrome V w < Z.of_nat (syndromes V).
Proof.
  unfold syndrome, syndrome_of.
  pose proof (check_of_field V w) as [Hc _].
  pose proof (get_of_range V w) as Hg.
  rewrite Z.shiftr_div_pow2 by lia. change (2 ^ 2) with 4.
  assert (E : 4 * Z.of_nat (syndromes V) = 2 ^ (check_bits V + 2))
    by (destruct V; reflexivity).
  rewrite E in Hc, Hg.
  pose proof (lxor_range (check_bits V + 2) _ _
                ltac:(destruct V; vm_compute; congruence) Hc Hg) as Hx.
  rewrite <- E in Hx.
  split; [apply Z.div_pos | apply Z.div_lt_upper_bound]; lia.
Qed.

(** The error patterns, checked by running the decoder on each of them. *)
Lemma single_errors_ok (V : variant) :
  forallb (fun p =>
    returns 1 0
      (correct_with (get_of V) (check_of V) (syndrome_map V) (bit_at p)))
    (Zseq (Z.to_nat (codeword_bits V))) = true.
Proof. destruct V; vm_compute; reflexivity. Qed.

Lemma double_errors_ok (V : variant) :
  forallb (fun p =>
    forallb (fun q =>
      (p =? q)
      || returns 2 0
           (correct_with (get_of V) (check_of V) (syndrome_map V)
              (Z.lxor (bit_at p) (bit_at q))))
      (Zseq (Z.to_nat (codeword_bits V))))
    (Zseq (Z.to_nat (codeword_bits V))) = true.
Proof. destruct V; vm_compute; reflexivity. Qed.

Lemma syndrome_map_sound (V : variant) :
  forallb (fun s =>
    (s =? 0)
    || match syndrome_map V s with
       | Ok r => (computeParityInt64 (bit_at (fst r)) =? 1)
                 && (syndrome_of (get_of V) (check_of V) (bit_at (fst r)) =? s)
       | Panic _ => false
       end) (Zseq (syndromes V)) = true.
Proof. destruct V; vm_compute; reflexivity. Qed.

Lemma parity_bit_sound (V : variant) :
  computeParityInt64 (int64 (Z.shiftl 1 globalParityBitp)) = 1
  /\ syndrome_of (get_of V) (check_of V)
       (int64 (Z.shiftl 1 globalParityBitp)) = 0.
Proof. destruct V; vm_compute; auto. Qed.

Lemma codeword_bits_nat (V : variant) (p : Z) :
  0 <= p < codeword_bits V -> 0 <= p < Z.of_nat (Z.to_nat (codeword_bits V)).
Proof. destruct V; cbn; lia. Qed.

(** ** Properties of the codecs *)

(** C2 -- Round trip with zero errors: in every variant, for an input value
    within the Value-field width and a tag bit in {0, 1}, [Correct] applied
    to the packed codeword returns error count 0 and the codeword itself. *)
Theorem round_trip_zero_errors (V : variant) (v t : Z) :
  0 <= v < 2 ^ value_bits V -> t = 0 \/ t = 1 ->
  correct V (pack V v t) = Ok (0, pack V v t).
Proof.
  intros _ _. rewrite correct_engine.
  apply correct_valid, pack_valid.
Qed.

Lemma round_trip_zero_errors_witness :
  (0 <= 0x2a5 < 2 ^ value_bits VariantB /\ (1 = 0 \/ 1 = 1))
  /\ correct VariantB (pack VariantB 0x2a5 1)
     = Ok (0, pack VariantB 0x2a5 1).
Proof.
  assert (Hv : 0 <= 0x2a5 < 2 ^ value_bits VariantB) by (cbn; lia).
  assert (Ht : 1 = 0 \/ 1 = 1) by (right; reflexivity).
  exact (conj (conj Hv Ht) (round_trip_zero_errors VariantB 0x2a5 1 Hv Ht)).
Defined.

(** C1 -- Single-bit correction, exhaustive: in every variant, for every
    codeword [w = pack v t] with [v] within the Value-field width and [t] in
    {0, 1}, and every bit position [p] in [0, n-1], [Correct] applied to
    [w] with bit [p] flipped returns error count 1 and the original [w]. *)
Theorem single_bit_correction (V : variant) (v t p : Z) :
  0 <= v < 2 ^ value_bits V -> t = 0 \/ t = 1 ->
  0 <= p < codeword_bits V ->
  correct V (Z.lxor (pack V v t) (bit_at p)) = Ok (1, pack V v t).
Proof.
  intros _ _ Hp. rewrite correct_engine.
  apply correct_single with (n := Z.to_nat (codeword_bits V)).
  - apply get_of_lxor.
  - apply check_of_lxor.
  - apply single_errors_ok.
  - apply pack_valid.
  - now apply codeword_bits_nat.
Qed.

Lemma single_bit_correction_witness :
  (0 <= 0xabcdef01234567 < 2 ^ value_bits VariantC /\ (1 = 0 \/ 1 = 1)
   /\ 0 <= 63 < codeword_bits VariantC)
  /\ correct VariantC (Z.lxor (pack VariantC 0xabcdef01234567 1) (bit_at 63))
     = Ok (1, pack VariantC 0xabcdef01234567 1).
Proof.
  assert (Hv : 0 <= 0xabcdef01234567 < 2 ^ value_bits VariantC)
    by (cbn; lia).
  assert (Ht : 1 = 0 \/ 1 = 1) by (right; reflexivity).
  assert (Hp : 0 <= 63 < codeword_bits VariantC) by (cbn; lia).
  exact (conj (conj Hv (conj Ht Hp))
           (single_bit_correction VariantC 0xabcdef01234567 1 63 Hv Ht Hp)).
Defined.

(** C3 -- Double-bit detection: in every variant, for every valid codeword
    [w = pack v t] and every pair of distinct bit positions [p], [q] in
    [0, n-1], [Correct] applied to [w] with both bits flipped returns error
    count 2 and the sentinel 0. *)
Theorem double_bit_detection (V : variant) (v t p q : Z) :
  0 <= v < 2 ^ value_bits V -> t = 0 \/ t = 1 ->
  0 <= p < codeword_bits V -> 0 <= q < codeword_bits V -> p <> q ->
  correct V (Z.lxor (Z.lxor (pack V v t) (bit_at p)) (bit_at q)) = Ok (2, 0).
Proof.
  intros _ _ Hp Hq Hne. rewrite correct_engine.
  apply correct_double with (n := Z.to_nat (codeword_bits V)); auto.
  - apply get_of_lxor.
  - apply check_of_lxor.
  - apply double_errors_ok.
  - apply pack_valid.
  - now apply codeword_bits_nat.
  - now apply codeword_bits_nat.
Qed.

Lemma double_bit_detection_witness :
  (0 <= 6 < 2 ^ value_bits VariantA /\ (0 = 0 \/ 0 = 1)
   /\ 0 <= 1 < codeword_bits VariantA /\ 0 <= 7 < codeword_bits VariantA
   /\ 1 <> 7)
  /\ correct VariantA
       (Z.lxor (Z.lxor (pack VariantA 6 0) (bit_at 1)) (bit_at 7))
     = Ok (2, 0).
Proof.
  assert (Hv : 0 <= 6 < 2 ^ value_bits VariantA) by (cbn; lia).
  assert (Ht : 0 = 0 \/ 0 = 1) by (left; reflexivity).
  assert (Hp : 0 <= 1 < codeword_bits VariantA) by (cbn; lia).
  assert (Hq : 0 <= 7 < codeword_bits VariantA) by (cbn; lia).
  assert (Hne : 1 <> 7) by discriminate.
  exact (conj (conj Hv (conj Ht (conj Hp (conj Hq Hne))))
           (double_bit_detection VariantA 6 0 1 7 Hv Ht Hp Hq Hne)).
Defined.

(** C4 -- Concrete scenario, variant A (n = 8): packing value 5 (binary 101) with tag
    bit 1 gives the fixed 8-bit integer 0xa5; flipping bit 6 of it is
    corrected back to it with error count 1; flipping bits 3 and 6 gives
    error count 2 and the sentinel 0. *)
Theorem scenario_variant_A :
  Hamming4.PackWithCheckBits 5 1 = 0xa5
  /\ 0 <= 0xa5 < 2 ^ 8
  /\ Hamming4.Correct (Z.lxor 0xa5 (Z.shiftl 1 6)) = Ok (1, 0xa5)
  /\ Hamming4.Correct (Z.lxor (Z.lxor 0xa5 (Z.shiftl 1 3)) (Z.shiftl 1 6))
     = Ok (2, 0).
Proof. vm_compute. intuition congruence. Qed.

(** C5 -- [Correct] is free of fatal errors: in every variant and for every
    [int64] argument, [Correct] returns an error count in {0, 1, 2} and a
    value.  The syndrome always fits in [r] bits, [mapSyndromeToBitPos]
    answers every syndrome in [1, 2^r - 1] (both panics are out of reach),
    and each population-count loop leaves through its exit condition. *)
Theorem correct_never_panics (V : variant) (w : Z) :
  in_int64 w ->
  (exists n c, correct V w = Ok (n, c) /\ (n = 0 \/ n = 1 \/ n = 2))
  /\ 0 <= syndrome V w < 2 ^ check_bits V
  /\ (forall s, 1 <= s < 2 ^ check_bits V ->
        exists r, syndrome_map V s = Ok r)
  /\ (forall x, fst (onesCount64_loop 64 (uint64 x) 0) = 0).
Proof.
  intros _.
  assert (E : Z.of_nat (syndromes V) = 2 ^ check_bits V)
    by (destruct V; reflexivity).
  repeat split.
  - rewrite correct_engine.
    apply correct_total with (smax := syndromes V).
    + apply syndrome_range.
    + apply syndrome_map_sound.
  - apply syndrome_range.
  - rewrite <- E. apply syndrome_range.
  - intros s Hs.
    pose proof (Zseq_forall _ _ (syndrome_map_sound V) s) as H.
    cbv beta in H. rewrite E in H. specialize (H ltac:(lia)).
    destruct (Z.eqb_spec s 0); [lia|]. cbn [orb] in H.
    destruct (syndrome_map V s) as [r|]; [eauto | discriminate].
  - intros x. now rewrite onesCount64_loop_exit by apply uint64_range.
Qed.

Lemma correct_never_panics_witness :
  in_int64 (-12346)
  /\ (exists n c, correct VariantC (-12346) = Ok (n, c)
                  /\ (n = 0 \/ n = 1 \/ n = 2)).
Proof.
  assert (Hw : in_int64 (-12346)) by (unfold in_int64; lia).
  exact (conj Hw (proj1 (correct_never_panics VariantC (-12346) Hw))).
Defined.

(** C10 -- Single-error repair always yields a valid codeword: in every
    variant and for every [int64] word [w], if [Correct w] returns
    [(1, x)] then [Correct x] returns [(0, x)]. *)
Theorem repair_yields_valid (V : variant) (w x : Z) :
  in_int64 w -> correct V w = Ok (1, x) -> correct V x = Ok (0, x).
Proof.
  intros _. rewrite !correct_engine.
  apply correct_repair_valid with (smax := syndromes V).
  - apply get_of_lxor.
  - apply check_of_lxor.
  - apply syndrome_range.
  - apply syndrome_map_sound.
  - apply parity_bit_sound.
Qed.

Lemma repair_yields_valid_witness :
  (in_int64 0x1234 /\ correct VariantB 0x1234 = Ok (1, 0x1214))
  /\ correct VariantB 0x1214 = Ok (0, 0x1214).
Proof.
  assert (Hw : in_int64 0x1234) by (unfold in_int64; lia).
  assert (Hc : correct VariantB 0x1234 = Ok (1, 0x1214))
    by (vm_compute; reflexivity).
  exact (conj (conj Hw Hc) (repair_yields_valid VariantB 0x1234 0x1214 Hw Hc)).
Defined.

(** C9 -- The sentinel of an uncorrectable error collides with a valid
    codeword: in every variant [PackWithCheckBits 0 0 = 0] and
    [Correct 0 = (0, 0)], while a double error (here bits 0 and 2 of that
    codeword) returns [(2, 0)] with the very same value; only the error
    count tells them apart. *)
Theorem sentinel_collides_with_codeword (V : variant) :
  pack V 0 0 = 0
  /\ correct V 0 = Ok (0, 0)
  /\ correct V (Z.lxor (Z.lxor (pack V 0 0) (bit_at 0)) (bit_at 2))
     = Ok (2, pack V 0 0).
Proof. destruct V; vm_compute; auto. Qed.

(** *** The global parity bit *)

Lemma bit1_clear (u : Z) :
  Z.land u 2 = 0 ->
  Z.testbit u 1 = false /\ Z.clearbit u 1 = u
  /\ Z.testbit (Z.lor u 2) 1 = true /\ Z.clearbit (Z.lor u 2) 1 = u.
Proof.
  intros H.
  assert (B : Z.testbit u 1 = false).
  { pose proof (f_equal (fun x => Z.testbit x 1) H) as T. cbv beta in T.
    rewrite Z.land_spec, Z.bits_0 in T.
    change (Z.testbit 2 1) with true in T. now rewrite andb_true_r in T. }
  repeat split.
  - exact B.
  - apply Z.bits_inj'; intros i Hi. rewrite Z.clearbit_eqb.
    destruct (Z.eqb_spec 1 i) as [<-|]; [now rewrite B | apply andb_true_r].
  - rewrite Z.lor_spec. apply orb_true_r.
  - apply Z.bits_inj'; intros i Hi. rewrite Z.clearbit_eqb, Z.lor_spec.
    destruct (Z.eqb_spec 1 i) as [<-|Hne].
    + now rewrite B.
    + change 2 with (2 ^ 1). rewrite Z.pow2_bits_false by assumption.
      now rewrite orb_false_r, andb_true_r.
Qed.

(** The word before the parity bit is set has bit 1 clear. *)
Lemma pack_before_parity (V : variant) (v t : Z) :
  exists u,
    Z.land u 2 = 0
    /\ pack V v t
       = Z.lor u (Z.shiftl (Z.land (computeParityInt64 u) 1) globalParityBitp).
Proof.
  rewrite pack_engine. unfold pack_with.
  set (p := Z.lor (int64 (Z.shiftl v (value_shift V))) (Z.land t 1)).
  exists (Z.lor p (check_of V p)). split; [|reflexivity].
  eapply (with_check_bits_syndrome (get_of V) (check_of V) (value_shift V)
            (syndromes V)).
  - apply get_of_lxor.
  - apply check_of_lxor.
  - apply check_of_field.
  - apply get_of_reserved.
  - apply field_words_ok.
  - apply parity_word_ok.
  - apply packed_reserved_clear, value_shift_range.
Qed.

(** C6 -- Freshly packed codewords have even overall parity: in every
    variant, for every [int64] input value and every tag bit, the number of
    one bits of the 64-bit word returned by [PackWithCheckBits] is even,
    and the global parity bit at position 1 equals the parity of the rest
    of the word. *)
Theorem packed_parity_even (V : variant) (v t : Z) :
  in_int64 v ->
  popcount (uint64 (pack V v t)) mod 2 = 0
  /\ computeParityInt64 (pack V v t) = 0
  /\ Z.b2z (Z.testbit (pack V v t) globalParityBitp)
     = computeParityInt64 (Z.clearbit (pack V v t) globalParityBitp).
Proof.
  intros _.
  pose proof (pack_valid V v t) as [Hp _].
  repeat split.
  - rewrite computeParityInt64_word in Hp. unfold word_parity in Hp.
    rewrite Zmod_odd. now destruct (Z.odd _).
  - exact Hp.
  - destruct (pack_before_parity V v t) as (u & H2 & ->).
    destruct (bit1_clear u H2) as (B1 & B2 & B3 & B4).
    unfold globalParityBitp.
    destruct (computeParityInt64_bit u) as [Hu|Hu]; rewrite Hu.
    + change (Z.shiftl (Z.land 0 1) 1) with 0.
      now rewrite Z.lor_0_r, B1, B2, Hu.
    + change (Z.shiftl (Z.land 1 1) 1) with 2.
      now rewrite B3, B4, Hu.
Qed.

Lemma packed_parity_even_witness :
  in_int64 (-3)
  /\ popcount (uint64 (pack VariantB (-3) 7)) mod 2 = 0.
Proof.
  assert (Hv : in_int64 (-3)) by (unfold in_int64; lia).
  exact (conj Hv (proj1 (packed_parity_even VariantB (-3) 7 Hv))).
Defined.

(** *** The syndrome table *)

Lemma outcome_eqb_true (a b : outcome (Z * bool)) :
  outcome_eqb a b = true -> a = b.
Proof.
  destruct a as [[p c]|m], b as [[p' c']|m']; cbn [outcome_eqb];
    try discriminate.
  - intros H. apply andb_prop in H as [H1 H2].
    apply Z.eqb_eq in H1. apply Bool.eqb_prop in H2. now subst.
  - intros H. apply String.eqb_eq in H. now subst.
Qed.

Lemma syndrome_table_ok (V : variant) :
  forallb (fun s =>
    (s =? 0)
    || (outcome_eqb (syndrome_map V s) (map_as_specified thresholds_above V s)
        && (thresholds_above V s =? check_bits V - 1 - Z.log2 s)))
    (Zseq (syndromes V)) = true.
Proof. destruct V; vm_compute; reflexivity. Qed.

(** C7, amended -- Syndrome-to-bit-position mapping: in every variant and
    for every syndrome [s] in [1, 2^r - 1], [mapSyndromeToBitPos] maps 3 to
    position 0 (the Tag bit), a power of two [s] to check-bit position
    [log2 s + 2], and any other [s] to the Value-field position [s] plus one
    for each power-of-two threshold still above [s] (those greater than [s]
    and at most [2^(r-1)]), that is [s + (r - 1 - log2 s)]. *)
Theorem syndrome_map_table (V : variant) (s : Z) :
  1 <= s < 2 ^ check_bits V ->
  syndrome_map V s = map_as_specified thresholds_above V s
  /\ thresholds_above V s = check_bits V - 1 - Z.log2 s.
Proof.
  intros Hs.
  assert (E : Z.of_nat (syndromes V) = 2 ^ check_bits V)
    by (destruct V; reflexivity).
  pose proof (Zseq_forall _ _ (syndrome_table_ok V) s) as H.
  cbv beta in H. rewrite E in H. specialize (H ltac:(lia)).
  destruct (Z.eqb_spec s 0); [lia|]. cbn [orb] in H.
  apply andb_prop in H as [H1 H2].
  split; [now apply outcome_eqb_true | now apply Z.eqb_eq].
Qed.

Lemma syndrome_map_table_witness :
  1 <= 9 < 2 ^ check_bits VariantC
  /\ syndrome_map VariantC 9 = map_as_specified thresholds_above VariantC 9
  /\ thresholds_above VariantC 9 = check_bits VariantC - 1 - Z.log2 9.
Proof.
  assert (Hs : 1 <= 9 < 2 ^ check_bits VariantC) by (cbn; lia).
  exact (conj Hs (syndrome_map_table VariantC 9 Hs)).
Defined.

(** C7 as worded fails: with one added for each threshold at or below [s],
    syndrome 5 of variant A would be position 8, outside the 8-bit codeword;
    the package answers position 5. *)
Lemma syndrome_map_not_thresholds_passed :
  ~ (forall V s, 1 <= s < 2 ^ check_bits V ->
       syndrome_map V s = map_as_specified thresholds_passed V s).
Proof.
  intros H. specialize (H VariantA 5 ltac:(cbn; lia)).
  vm_compute in H. discriminate H.
Qed.

(** *** Input values wider than the Value field *)

(** The Value field is the input shifted into place, bit for bit, as far
    as the 64-bit word reaches. *)
Lemma pack_value_bits (V : variant) (v t i : Z) :
  0 <= i -> value_shift V + i < 64 ->
  Z.testbit (pack V v t) (value_shift V + i) = Z.testbit v i.
Proof.
  intros Hi Hj.
  pose proof (value_shift_range V) as Hsh.
  assert (H5 : 5 <= value_shift V) by (destruct V; cbn; lia).
  rewrite pack_engine. unfold pack_with.
  set (p := Z.lor (int64 (Z.shiftl v (value_shift V))) (Z.land t 1)).
  set (j := value_shift V + i) in *.
  rewrite !Z.lor_spec.
  assert (T3 : Z.testbit
                 (Z.shiftl (Z.land (computeParityInt64 (Z.lor p (check_of V p))) 1)
                    globalParityBitp) j = false).
  { destruct (computeParityInt64_bit (Z.lor p (check_of V p))) as [->| ->].
    - apply Z.bits_0.
    - change (Z.shiftl (Z.land 1 1) globalParityBitp) with (2 ^ 1).
      apply Z.pow2_bits_false. lia. }
  assert (T2 : Z.testbit (check_of V p) j = false).
  { destruct (check_of_field V p) as [Hc _].
    assert (E : 4 * Z.of_nat (syndromes V) = 2 ^ value_shift V)
      by (destruct V; reflexivity).
    rewrite E in Hc.
    rewrite <- (Z.mod_small _ _ Hc).
    apply Z.mod_pow2_bits_high. lia. }
  rewrite T2, T3, !orb_false_r.
  unfold p. rewrite Z.lor_spec, Z.land_spec.
  assert (T1 : Z.testbit 1 j = false)
    by (change 1 with (2 ^ 0); apply Z.pow2_bits_false; lia).
  rewrite T1, andb_false_r, orb_false_r.
  rewrite int64_testbit by lia.
  rewrite Z.shiftl_spec by lia.
  f_equal. lia.
Qed.

(** In the 64-bit variant the shift by 8 drops input bits 56 to 63. *)
Lemma int64_shiftl_8_low (v : Z) :
  int64 (Z.shiftl v 8) = int64 (Z.shiftl (v mod 2 ^ 56) 8).
Proof.
  rewrite !Z.shiftl_mul_pow2 by lia.
  unfold int64. f_equal.
  pose proof (Z.div_mod v (2 ^ 56) ltac:(lia)) as D.
  replace (v * 2 ^ 8 + 2 ^ 63)
    with (v mod 2 ^ 56 * 2 ^ 8 + 2 ^ 63 + (v / 2 ^ 56) * 2 ^ 64) by lia.
  apply Z_mod_plus_full.
Qed.

Lemma pack_C_low_bits (v t : Z) :
  pack VariantC v t = pack VariantC (v mod 2 ^ value_bits VariantC) t.
Proof.
  rewrite !pack_engine. unfold pack_with.
  change (value_shift VariantC) with 8.
  change (value_bits VariantC) with 56.
  now rewrite <- int64_shiftl_8_low.
Qed.

(** C8, amended -- The encoder does not mask its input: in every variant
    input bit [i] lands at codeword position [r + 2 + i] whenever that
    position is below 64.  In variants A and B there is therefore an input
    value wider than the Value field whose packed result differs from the
    pack of its low [k - 1] bits and has bits set outside the [n]-bit
    layout.  In variant C the shift by 8 discards input bits 56 to 63, so
    the packed result equals the pack of the low 56 bits. *)
Theorem encoder_does_not_mask :
  (forall V v t i, 0 <= i -> value_shift V + i < 64 ->
     Z.testbit (pack V v t) (value_shift V + i) = Z.testbit v i)
  /\ carries_excess_bits VariantA
  /\ carries_excess_bits VariantB
  /\ (forall v t,
        pack VariantC v t = pack VariantC (v mod 2 ^ value_bits VariantC) t).
Proof.
  split; [exact pack_value_bits|].
  split; [|split; [|exact pack_C_low_bits]].
  - exists 8, 0. repeat split; try (vm_compute; congruence).
  - exists (2 ^ 10), 1. repeat split; try (vm_compute; congruence).
Qed.

(** C8 as worded fails for variant C: no input value is carried beyond the
    field; already [2^56], the lowest excess bit, packs to the codeword
    of 0. *)
Lemma encoder_masks_in_variant_C :
  pack VariantC (2 ^ 56) 0 = pack VariantC 0 0
  /\ ~ (forall V, carries_excess_bits V).
Proof.
  split; [vm_compute; reflexivity|].
  intros H. destruct (H VariantC) as (v & t & _ & _ & Hne & _).
  apply Hne, pack_C_low_bits.
Qed.

(** ** Further properties of the codecs *)

(** *** The population count *)

Lemma popcount_double_bit (z : Z) (b : bool) :
  0 <= z -> popcount (2 * z + Z.b2z b) = popcount z + Z.b2z b.
Proof.
  intros Hz. destruct z as [|p|p]; try lia.
  - now destruct b.
  - destruct b; cbn [Z.b2z].
    + change (2 * Z.pos p + 1) with (Z.pos p~1).
      cbn [popcount Pos_popcount]. lia.
    + rewrite Z.add_0_r. change (2 * Z.pos p) with (Z.pos p~0).
      cbn [popcount Pos_popcount]. lia.
Qed.

Lemma popcount_add_pow2 (k : nat) :
  forall y, 0 <= y < 2 ^ Z.of_nat k ->
    popcount (y + 2 ^ Z.of_nat k) = popcount y + 1.
Proof.
  induction k as [|k IH]; intros y Hy.
  - assert (y = 0) by (cbn in Hy; lia). subst. reflexivity.
  - rewrite Nat2Z.inj_succ, Z.pow_succ_r in * by lia.
    pose proof (Z.div_mod y 2 ltac:(lia)) as D.
    pose proof (Z.mod_pos_bound y 2 ltac:(lia)) as M.
    assert (Hb : y mod 2 = Z.b2z (Z.odd y))
      by (rewrite Zmod_odd; now destruct (Z.odd y)).
    assert (Hq : 0 <= y / 2 < 2 ^ Z.of_nat k) by lia.
    replace (y + 2 * 2 ^ Z.of_nat k)
      with (2 * (y / 2 + 2 ^ Z.of_nat k) + Z.b2z (Z.odd y)) by lia.
    rewrite popcount_double_bit by lia.
    rewrite IH by assumption.
    replace y with (2 * (y / 2) + Z.b2z (Z.odd y)) at 3 by lia.
    rewrite popcount_double_bit by lia. lia.
Qed.

Lemma count_set_bits_ext (n : nat) (x y : Z) :
  (forall i, 0 <= i < Z.of_nat n -> Z.testbit x i = Z.testbit y i) ->
  count_set_bits n x = count_set_bits n y.
Proof.
  induction n as [|k IH]; intros H; cbn [count_set_bits]; [reflexivity|].
  rewrite IH, H by (try (intros; apply H); lia). reflexivity.
Qed.

Lemma popcount_count_set_bits (n : nat) :
  forall x, 0 <= x < 2 ^ Z.of_nat n -> popcount x = count_set_bits n x.
Proof.
  induction n as [|k IH]; intros x Hx.
  - assert (x = 0) by (cbn in Hx; lia). subst. reflexivity.
  - cbn [count_set_bits].
    rewrite Nat2Z.inj_succ, Z.pow_succ_r in Hx by lia.
    pose proof (Z.pow_pos_nonneg 2 (Z.of_nat k) ltac:(lia) ltac:(lia)) as P.
    pose proof (Z.div_mod x (2 ^ Z.of_nat k) ltac:(lia)) as D.
    pose proof (Z.mod_pos_bound x (2 ^ Z.of_nat k) ltac:(lia)) as M.
    assert (Q : 0 <= x / 2 ^ Z.of_nat k < 2).
    { split; [apply Z.div_pos; lia | apply Z.div_lt_upper_bound; lia]. }
    assert (B : Z.b2z (Z.testbit x (Z.of_nat k)) = x / 2 ^ Z.of_nat k).
    { rewrite Z.testbit_spec' by lia. apply Z.mod_small. lia. }
    rewrite (count_set_bits_ext k x (x mod 2 ^ Z.of_nat k))
      by (intros i Hi; now rewrite Z.mod_pow2_bits_low by lia).
    rewrite <- IH by lia. rewrite B.
    assert (C : x / 2 ^ Z.of_nat k = 0 \/ x / 2 ^ Z.of_nat k = 1) by lia.
    destruct C as [C|C]; rewrite C in *.
    + replace (x mod 2 ^ Z.of_nat k) with x by lia. lia.
    + replace x with (x mod 2 ^ Z.of_nat k + 2 ^ Z.of_nat k) at 1 by lia.
      now rewrite popcount_add_pow2 by lia.
Qed.

(** X1 -- [onesCount64] returns the number of bit positions below 64 at
    which its argument has a one bit; the loop reaches its exit condition
    within 64 iterations and the count is at most 64. *)
Theorem onesCount64_counts_bits (x : Z) :
  0 <= x < 2 ^ 64 ->
  onesCount64 x = count_set_bits 64 x
  /\ fst (onesCount64_loop 64 x 0) = 0
  /\ 0 <= onesCount64 x <= 64.
Proof.
  intros Hx.
  rewrite onesCount64_popcount, onesCount64_loop_exit by assumption.
  repeat split.
  - now apply (popcount_count_set_bits 64).
  - apply popcount_nonneg.
  - now apply popcount_bound.
Qed.

Lemma onesCount64_counts_bits_witness :
  0 <= 0xf0f0 < 2 ^ 64
  /\ onesCount64 0xf0f0 = count_set_bits 64 0xf0f0.
Proof.
  assert (Hx : 0 <= 0xf0f0 < 2 ^ 64) by lia.
  exact (conj Hx (proj1 (onesCount64_counts_bits 0xf0f0 Hx))).
Defined.

(** *** The fields of a packed word *)

Lemma layout_sum (V : variant) :
  value_bits V + value_shift V = codeword_bits V /\ codeword_bits V <= 64.
Proof. destruct V; cbn; lia. Qed.

Lemma pack_tag_bit (V : variant) (v t : Z) :
  Z.testbit (pack V v t) 0 = Z.testbit t 0.
Proof.
  pose proof (value_shift_range V) as Hsh.
  assert (H5 : 5 <= value_shift V) by (destruct V; cbn; lia).
  rewrite pack_engine. unfold pack_with.
  set (p := Z.lor (int64 (Z.shiftl v (value_shift V))) (Z.land t 1)).
  rewrite !Z.lor_spec.
  assert (T3 : Z.testbit
                 (Z.shiftl (Z.land (computeParityInt64 (Z.lor p (check_of V p))) 1)
                    globalParityBitp) 0 = false).
  { destruct (computeParityInt64_bit (Z.lor p (check_of V p))) as [->| ->];
      reflexivity. }
  assert (T2 : Z.testbit (check_of V p) 0 = false).
  { destruct (check_of_field V p) as [_ Hm].
    apply Z.b2z_inj. rewrite Z.bit0_mod. cbn [Z.b2z].
    pose proof (Z.div_mod (check_of V p) 4 ltac:(lia)) as D.
    replace (check_of V p) with (2 * (check_of V p / 4) * 2) by lia.
    apply Z_mod_mult. }
  rewrite T2, T3, !orb_false_r.
  unfold p. rewrite Z.lor_spec, Z.land_spec.
  rewrite int64_testbit by lia.
  rewrite Z.shiftl_spec_low by lia.
  change (Z.testbit 1 0) with true. now rewrite andb_true_r.
Qed.

(** X2 -- Field layout of a packed word: for an input value within the
    Value-field width, the 64-bit word returned by [PackWithCheckBits]
    holds the value unchanged from bit [r + 2] upwards and the tag bit
    [tagBit & 1] at bit 0, and has no bit set at or above position [n]. *)
Theorem pack_fields (V : variant) (v t : Z) :
  0 <= v < 2 ^ value_bits V ->
  Z.shiftr (uint64 (pack V v t)) (value_shift V) = v
  /\ Z.land (pack V v t) 1 = Z.land t 1
  /\ 0 <= uint64 (pack V v t) < 2 ^ codeword_bits V.
Proof.
  intros Hv.
  pose proof (value_shift_range V) as Hsh.
  destruct (layout_sum V) as [Hn Hn64].
  assert (Hk : 0 <= value_bits V) by (destruct V; cbn; lia).
  assert (S : Z.shiftr (uint64 (pack V v t)) (value_shift V) = v).
  { apply Z.bits_inj'; intros i Hi.
    rewrite Z.shiftr_spec by assumption. unfold uint64.
    destruct (Z.ltb_spec (i + value_shift V) 64) as [Hlt|Hge].
    - rewrite Z.mod_pow2_bits_low by assumption.
      rewrite (Z.add_comm i). apply pack_value_bits; lia.
    - rewrite Z.mod_pow2_bits_high by lia.
      rewrite <- (Z.mod_small v (2 ^ value_bits V)) by assumption.
      symmetry. apply Z.mod_pow2_bits_high. lia. }
  repeat split.
  - exact S.
  - change 1 with (Z.ones 1). rewrite !Z.land_ones by lia.
    change (2 ^ 1) with 2. rewrite <- !Z.bit0_mod.
    now rewrite pack_tag_bit.
  - apply uint64_range.
  - pose proof (uint64_range (pack V v t)) as Hu.
    rewrite Z.shiftr_div_pow2 in S by lia.
    pose proof (Z.pow_pos_nonneg 2 (value_shift V) ltac:(lia) ltac:(lia)) as P.
    pose proof (Z.div_mod (uint64 (pack V v t)) (2 ^ value_shift V)
                  ltac:(lia)) as D.
    pose proof (Z.mod_pos_bound (uint64 (pack V v t)) (2 ^ value_shift V)
                  ltac:(lia)) as M.
    rewrite S in D. rewrite <- Hn, Z.pow_add_r by lia. nia.
Qed.

Lemma pack_fields_witness :
  0 <= 0xdeadbeefcafe42 < 2 ^ value_bits VariantC
  /\ Z.shiftr (uint64 (pack VariantC 0xdeadbeefcafe42 3)) (value_shift VariantC)
     = 0xdeadbeefcafe42.
Proof.
  assert (Hv : 0 <= 0xdeadbeefcafe42 < 2 ^ value_bits VariantC)
    by (cbn; lia).
  exact (conj Hv (proj1 (pack_fields VariantC 0xdeadbeefcafe42 3 Hv))).
Defined.

(** *** Results stay within [int64] *)

Lemma in_int64_cases (x : Z) :
  in_int64 x <-> (0 <= x < 2 ^ 63) \/ (0 <= Z.lnot x < 2 ^ 63).
Proof. unfold in_int64. rewrite Z.lnot_eq_pred_opp. lia. Qed.

Lemma lor_range (k a b : Z) :
  0 <= k -> 0 <= a < 2 ^ k -> 0 <= b < 2 ^ k -> 0 <= Z.lor a b < 2 ^ k.
Proof.
  intros Hk Ha Hb.
  assert (E : Z.lor a b = Z.lor a b mod 2 ^ k).
  { rewrite <- Z.land_ones, Z.land_lor_distr_l, !Z.land_ones by lia.
    now rewrite !Z.mod_small by lia. }
  rewrite E. apply Z.mod_pos_bound. lia.
Qed.

Lemma lxor_in_int64 (a b : Z) :
  in_int64 a -> in_int64 b -> in_int64 (Z.lxor a b).
Proof.
  rewrite !in_int64_cases. intros [Ha|Ha] [Hb|Hb].
  - left. apply lxor_range; lia.
  - right. rewrite Z.lnot_lxor_r. apply lxor_range; lia.
  - right. rewrite Z.lnot_lxor_l. apply lxor_range; lia.
  - left. rewrite <- Z.lxor_lnot_lnot. apply lxor_range; lia.
Qed.

Lemma lor_in_int64 (a b : Z) :
  in_int64 a -> in_int64 b -> in_int64 (Z.lor a b).
Proof.
  rewrite !in_int64_cases. intros [Ha|Ha] [Hb|Hb].
  - left. apply lor_range; lia.
  - right. rewrite Z.lnot_lor.
    pose proof (land_upper_bound (Z.lnot a) (Z.lnot b) ltac:(lia)). lia.
  - right. rewrite Z.lnot_lor, Z.land_comm.
    pose proof (land_upper_bound (Z.lnot b) (Z.lnot a) ltac:(lia)). lia.
  - right. rewrite Z.lnot_lor.
    pose proof (land_upper_bound (Z.lnot a) (Z.lnot b) ltac:(lia)). lia.
Qed.

Lemma pack_in_int64 (V : variant) (v t : Z) : in_int64 (pack V v t).
Proof.
  rewrite pack_engine. unfold pack_with.
  set (p := Z.lor (int64 (Z.shiftl v (value_shift V))) (Z.land t 1)).
  assert (Hp : in_int64 p).
  { apply lor_in_int64; [apply int64_range|].
    pose proof (land_upper_bound t 1 ltac:(lia)). unfold in_int64. lia. }
  apply lor_in_int64; [apply lor_in_int64; [exact Hp|] |].
  - destruct (check_of_field V p) as [Hc _].
    assert (4 * Z.of_nat (syndromes V) <= 256)
      by (destruct V; vm_compute; discriminate).
    unfold in_int64. lia.
  - destruct (computeParityInt64_bit (Z.lor p (check_of V p))) as [->| ->];
      unfold in_int64; cbn; lia.
Qed.

(** X3 -- No hidden overflow: the word returned by [PackWithCheckBits] is
    an [int64] for all inputs, and for an [int64] argument the value
    returned by [Correct] is an [int64] again. *)
Theorem results_fit_int64 (V : variant) (v t w : Z) :
  in_int64 (pack V v t)
  /\ (in_int64 w -> forall k c, correct V w = Ok (k, c) -> in_int64 c).
Proof.
  split; [apply pack_in_int64|].
  intros Hw k c. rewrite correct_engine. unfold correct_with.
  destruct (computeParityInt64 w =? 0).
  - destruct (_ =? 0); intros E.
    + assert (c = w) by congruence. now subst.
    + assert (c = 0) by congruence. subst. unfold in_int64. lia.
  - destruct (_ =? 0).
    + intros E.
      assert (c = Z.lxor w (int64 (Z.shiftl 1 globalParityBitp)))
        by congruence.
      subst. apply lxor_in_int64; [assumption | apply int64_range].
    + destruct (syndrome_map V _) as [r|]; cbn [bind]; [|discriminate].
      intros E.
      assert (c = Z.lxor w (int64 (Z.shiftl 1 (fst r)))) by congruence.
      subst. apply lxor_in_int64; [assumption | apply int64_range].
Qed.

(** *** What the decoder does to a word *)

Lemma testbit_one (z : Z) : Z.testbit 1 z = (z =? 0).
Proof. destruct z as [|p|p]; try reflexivity; now destruct p. Qed.

Lemma bit_at_spec (p i : Z) :
  0 <= p -> 0 <= i < 64 -> Z.testbit (bit_at p) i = (i =? p).
Proof.
  intros Hp Hi. unfold bit_at.
  rewrite int64_testbit, Z.shiftl_spec, testbit_one by lia.
  destruct (Z.eqb_spec (i - p) 0), (Z.eqb_spec i p); auto; lia.
Qed.

Lemma bit_parity_ok :
  forallb (fun p => computeParityInt64 (bit_at p) =? 1) (Zseq 64) = true.
Proof. vm_compute. reflexivity. Qed.

Lemma syndrome_positions_ok (V : variant) :
  forallb (fun s =>
    (s =? 0)
    || match syndrome_map V s with
       | Ok r => (0 <=? fst r) && (fst r <? codeword_bits V)
                 && negb (fst r =? 1)
                 && Bool.eqb (snd r) (is_check_position V (fst r))
                 && (syndrome V (bit_at (fst r)) =? s)
       | Panic _ => false
       end) (Zseq (syndromes V)) = true.
Proof. destruct V; vm_compute; reflexivity. Qed.

Lemma syndrome_position (V : variant) (s : Z) :
  1 <= s < Z.of_nat (syndromes V) ->
  exists p, syndrome_map V s = Ok (p, is_check_position V p)
            /\ 0 <= p < codeword_bits V /\ p <> 1
            /\ syndrome V (bit_at p) = s.
Proof.
  intros Hs.
  pose proof (Zseq_forall _ _ (syndrome_positions_ok V) s ltac:(lia)) as H.
  cbv beta in H.
  destruct (Z.eqb_spec s 0); [lia|]. cbn [orb] in H.
  destruct (syndrome_map V s) as [[p c]|]; [|discriminate]. cbn [fst snd] in H.
  apply andb_prop in H as [H H5]. apply andb_prop in H as [H H4].
  apply andb_prop in H as [H H3]. apply andb_prop in H as [H1 H2].
  apply Bool.eqb_prop in H4. subst c.
  exists p. repeat split; lia.
Qed.

Lemma correct_cases (V : variant) (w k c : Z) :
  correct V w = Ok (k, c) ->
  (k = 0 /\ c = w /\ computeParityInt64 w = 0)
  \/ (k = 2 /\ c = 0 /\ computeParityInt64 w = 0)
  \/ (k = 1 /\ computeParityInt64 w = 1
      /\ exists p, 0 <= p < codeword_bits V /\ c = Z.lxor w (bit_at p)).
Proof.
  rewrite correct_engine. unfold correct_with.
  destruct (Z.eqb_spec (computeParityInt64 w) 0) as [Hp|Hp].
  - destruct (_ =? 0); intros E.
    + left. repeat split; congruence.
    + right; left. repeat split; congruence.
  - assert (Hp1 : computeParityInt64 w = 1)
      by (destruct (computeParityInt64_bit w); [contradiction|assumption]).
    fold (syndrome V w).
    destruct (Z.eqb_spec (syndrome V w) 0) as [Hs|Hs]; intros E; right; right.
    + repeat split; try congruence.
      exists 1. split; [destruct V; cbn; lia|].
      unfold bit_at. change 1 with globalParityBitp at 2. congruence.
    + pose proof (syndrome_range V w) as Hr.
      destruct (syndrome_position V (syndrome V w) ltac:(lia))
        as (p & Hm & Hpn & _).
      rewrite Hm in E. cbn [bind fst] in E.
      repeat split; try congruence.
      exists p. split; [assumption|]. unfold bit_at. congruence.
Qed.

(** X4 -- [Correct] changes at most one bit: for an [int64] word it either
    returns the word unchanged with count 0, or the sentinel 0 with count 2
    (both only when the overall parity is even), or, exactly when the
    overall parity is odd, count 1 and the word with a single bit inside
    the [n]-bit layout flipped. *)
Theorem correct_flips_at_most_one_bit (V : variant) (w k c : Z) :
  in_int64 w -> correct V w = Ok (k, c) ->
  (k = 0 /\ c = w /\ computeParityInt64 w = 0)
  \/ (k = 2 /\ c = 0 /\ computeParityInt64 w = 0)
  \/ (k = 1 /\ computeParityInt64 w = 1
      /\ exists p, 0 <= p < codeword_bits V /\ c = Z.lxor w (bit_at p)).
Proof. intros _. apply correct_cases. Qed.

Lemma correct_flips_at_most_one_bit_witness :
  (in_int64 0x1234 /\ correct VariantB 0x1234 = Ok (1, 0x1214))
  /\ ((1 = 0 /\ 0x1214 = 0x1234 /\ computeParityInt64 0x1234 = 0)
      \/ (1 = 2 /\ 0x1214 = 0 /\ computeParityInt64 0x1234 = 0)
      \/ (1 = 1 /\ computeParityInt64 0x1234 = 1
          /\ exists p, 0 <= p < codeword_bits VariantB
                       /\ 0x1214 = Z.lxor 0x1234 (bit_at p))).
Proof.
  assert (Hw : in_int64 0x1234) by (unfold in_int64; lia).
  assert (Hc : correct VariantB 0x1234 = Ok (1, 0x1214))
    by (vm_compute; reflexivity).
  exact (conj (conj Hw Hc)
           (correct_flips_at_most_one_bit VariantB 0x1234 1 0x1214 Hw Hc)).
Defined.

Lemma bit_parity (p : Z) : 0 <= p < 64 -> computeParityInt64 (bit_at p) = 1.
Proof.
  intros Hp.
  pose proof (Zseq_forall 64 _ bit_parity_ok p Hp) as H. cbv beta in H.
  now apply Z.eqb_eq.
Qed.

(** X5 -- Three flipped bits are beyond the code: in every variant, a
    codeword with three distinct bits of the layout flipped is reported as
    a single error, and the returned word is a valid codeword other than
    the original. *)
Theorem triple_error_miscorrected (V : variant) (v t p q r : Z) :
  0 <= p < codeword_bits V -> 0 <= q < codeword_bits V ->
  0 <= r < codeword_bits V -> p <> q -> p <> r -> q <> r ->
  exists x,
    correct V (Z.lxor (Z.lxor (Z.lxor (pack V v t) (bit_at p)) (bit_at q))
                 (bit_at r)) = Ok (1, x)
    /\ x <> pack V v t
    /\ correct V x = Ok (0, x).
Proof.
  intros Hp Hq Hr Hpq Hpr Hqr.
  destruct (layout_sum V) as [_ Hn].
  set (w := pack V v t).
  set (w' := Z.lxor (Z.lxor (Z.lxor w (bit_at p)) (bit_at q)) (bit_at r)).
  assert (Hodd : computeParityInt64 w' = 1).
  { unfold w'. rewrite !computeParityInt64_lxor, !bit_parity by lia.
    destruct (pack_valid V v t) as [Hw0 _]. fold w in Hw0.
    now rewrite Hw0. }
  assert (T : exists k c, correct V w' = Ok (k, c)).
  { rewrite correct_engine.
    destruct (correct_total (get_of V) (check_of V) (syndrome_map V)
                (syndromes V) (syndrome_range V) (syndrome_map_sound V) w')
      as (k & c & E & _).
    eauto. }
  destruct T as (k & c & E).
  destruct (correct_cases V w' k c E)
    as [(_ & _ & H0)|[(_ & _ & H0)|(-> & _ & s & Hs & ->)]]; try congruence.
  exists (Z.lxor w' (bit_at s)). split; [exact E|]. split.
  - intros Heq.
    assert (B : forall i, 0 <= i < 64 ->
              xorb (xorb (xorb (i =? p) (i =? q)) (i =? r)) (i =? s) = false).
    { intros i Hi.
      pose proof (f_equal (fun z => Z.testbit z i) Heq) as Hb.
      cbv beta in Hb. unfold w' in Hb.
      rewrite !Z.lxor_spec, !bit_at_spec in Hb by lia.
      destruct (Z.testbit w i), (i =? p), (i =? q), (i =? r), (i =? s);
        cbn in *; congruence. }
    pose proof (B p ltac:(lia)) as Bp. pose proof (B q ltac:(lia)) as Bq.
    rewrite Z.eqb_refl in Bp, Bq.
    destruct (Z.eqb_spec p q), (Z.eqb_spec q p), (Z.eqb_spec p r),
      (Z.eqb_spec q r), (Z.eqb_spec p s), (Z.eqb_spec q s);
      cbn in *; try congruence; lia.
  - rewrite correct_engine in *.
    apply correct_repair_valid with (smax := syndromes V) (w := w').
    + apply get_of_lxor.
    + apply check_of_lxor.
    + apply syndrome_range.
    + apply syndrome_map_sound.
    + apply parity_bit_sound.
    + exact E.
Qed.

Lemma triple_error_miscorrected_witness :
  (0 <= 0 < codeword_bits VariantA /\ 0 <= 3 < codeword_bits VariantA
   /\ 0 <= 7 < codeword_bits VariantA /\ 0 <> 3 /\ 0 <> 7 /\ 3 <> 7)
  /\ exists x,
       correct VariantA
         (Z.lxor (Z.lxor (Z.lxor (pack VariantA 5 1) (bit_at 0)) (bit_at 3))
            (bit_at 7)) = Ok (1, x)
       /\ x <> pack VariantA 5 1
       /\ correct VariantA x = Ok (0, x).
Proof.
  assert (Hp : 0 <= 0 < codeword_bits VariantA) by (cbn; lia).
  assert (Hq : 0 <= 3 < codeword_bits VariantA) by (cbn; lia).
  assert (Hr : 0 <= 7 < codeword_bits VariantA) by (cbn; lia).
  assert (Hpq : 0 <> 3) by discriminate.
  assert (Hpr : 0 <> 7) by discriminate.
  assert (Hqr : 3 <> 7) by discriminate.
  exact (conj (conj Hp (conj Hq (conj Hr (conj Hpq (conj Hpr Hqr)))))
           (triple_error_miscorrected VariantA 5 1 0 3 7
              Hp Hq Hr Hpq Hpr Hqr)).
Defined.

Lemma lxor_fixed (w c : Z) : Z.lxor w c = w -> c = 0.
Proof.
  intros E.
  rewrite <- (Z.lxor_0_l c), <- (Z.lxor_nilpotent w), Z.lxor_assoc, E.
  reflexivity.
Qed.

Lemma above_layout_ok (V : variant) :
  forallb (fun p =>
    (p <? codeword_bits V)
    || (returns 1 (Z.lxor (bit_at p) (bit_at 1))
          (correct_with (get_of V) (check_of V) (syndrome_map V) (bit_at p))
        && negb (Z.lxor (bit_at p) (bit_at 1) =? 0))) (Zseq 64) = true.
Proof. destruct V; vm_compute; reflexivity. Qed.

(** X6 -- Bits above the layout are covered by the overall parity only: in
    the 8-bit and 16-bit variants, flipping a bit at a position from [n] to
    63 of a codeword makes [Correct] report one error and flip the global
    parity bit instead, so the returned word is not the original. *)
Theorem flip_above_layout (V : variant) (v t p : Z) :
  codeword_bits V <= p < 64 ->
  correct V (Z.lxor (pack V v t) (bit_at p))
  = Ok (1, Z.lxor (Z.lxor (pack V v t) (bit_at p)) (bit_at 1))
  /\ Z.lxor (Z.lxor (pack V v t) (bit_at p)) (bit_at 1) <> pack V v t.
Proof.
  intros Hp.
  assert (H0 : 0 <= p < Z.of_nat 64) by (destruct V; cbn in *; lia).
  pose proof (Zseq_forall 64 _ (above_layout_ok V) p H0) as H.
  cbv beta in H.
  apply orb_prop in H as [H|H]; [apply Z.ltb_lt in H; lia|].
  apply andb_prop in H as [Hret Hnz]. apply returns_true in Hret.
  split.
  - rewrite correct_engine, Z.lxor_assoc.
    apply correct_one_translate.
    + apply get_of_lxor.
    + apply check_of_lxor.
    + apply pack_valid.
    + exact Hret.
  - intros E. rewrite Z.lxor_assoc in E.
    apply lxor_fixed in E. rewrite E in Hnz. discriminate Hnz.
Qed.

Lemma flip_above_layout_witness :
  codeword_bits VariantA <= 8 < 64
  /\ correct VariantA (Z.lxor (pack VariantA 5 1) (bit_at 8))
     = Ok (1, Z.lxor (Z.lxor (pack VariantA 5 1) (bit_at 8)) (bit_at 1)).
Proof.
  assert (Hp : codeword_bits VariantA <= 8 < 64) by (cbn; lia).
  exact (conj Hp (proj1 (flip_above_layout VariantA 5 1 8 Hp))).
Defined.

(** *** The syndrome map *)

Lemma outcome_eqb_refl (a : outcome (Z * bool)) : outcome_eqb a a = true.
Proof.
  destruct a as [[p c]|m]; cbn [outcome_eqb].
  - now rewrite Z.eqb_refl, Bool.eqb_reflx.
  - apply String.eqb_refl.
Qed.

Lemma outcome_eqb_iff (a b : outcome (Z * bool)) :
  outcome_eqb a b = true <-> a = b.
Proof.
  split; [apply outcome_eqb_true | intros ->; apply outcome_eqb_refl].
Qed.

Lemma syndrome_map_panics_ok (V : variant) :
  forallb (fun s =>
    Bool.eqb (outcome_eqb (syndrome_map V s) (Panic "syndrome too big"))
             (2 ^ check_bits V <=? s)
    && Bool.eqb (outcome_eqb (syndrome_map V s) (Panic "syndrome not mapped"))
                (s =? 0)) (Zseq 256) = true.
Proof. destruct V; vm_compute; reflexivity. Qed.

(** X7 -- The two panics of [mapSyndromeToBitPos]: for a [uint8] syndrome
    the function panics with "syndrome too big" exactly when the syndrome is
    at least [2^r], and with "syndrome not mapped" exactly when it is 0. *)
Theorem syndrome_map_panics (V : variant) (s : Z) :
  0 <= s < 2 ^ 8 ->
  (syndrome_map V s = Panic "syndrome too big" <-> 2 ^ check_bits V <= s)
  /\ (syndrome_map V s = Panic "syndrome not mapped" <-> s = 0).
Proof.
  intros Hs.
  pose proof (Zseq_forall 256 _ (syndrome_map_panics_ok V) s
                ltac:(cbn in *; lia)) as H.
  cbv beta in H. apply andb_prop in H as [H1 H2].
  apply Bool.eqb_prop in H1, H2.
  rewrite <- !outcome_eqb_iff, H1, H2.
  split; [apply Z.leb_le | apply Z.eqb_eq].
Qed.

Lemma syndrome_map_panics_witness :
  0 <= 16 < 2 ^ 8
  /\ (syndrome_map VariantB 16 = Panic "syndrome too big"
      <-> 2 ^ check_bits VariantB <= 16).
Proof.
  assert (Hs : 0 <= 16 < 2 ^ 8) by lia.
  exact (conj Hs (proj1 (syndrome_map_panics VariantB 16 Hs))).
Defined.

(** X8 -- From syndrome to position and back: in every variant each syndrome
    in [1, 2^r - 1] is mapped to a position of the layout other than the
    global parity bit, flagged as a check bit exactly when the position is
    in [2, r+1], and a flip of that single bit has that syndrome. *)
Theorem syndrome_names_its_bit (V : variant) (s : Z) :
  1 <= s < 2 ^ check_bits V ->
  exists p,
    syndrome_map V s = Ok (p, is_check_position V p)
    /\ 0 <= p < codeword_bits V /\ p <> 1
    /\ syndrome V (bit_at p) = s.
Proof.
  intros Hs. apply syndrome_position.
  replace (Z.of_nat (syndromes V)) with (2 ^ check_bits V)
    by (destruct V; reflexivity).
  exact Hs.
Qed.

Lemma syndrome_names_its_bit_witness :
  1 <= 17 < 2 ^ check_bits VariantC
  /\ exists p,
       syndrome_map VariantC 17 = Ok (p, is_check_position VariantC p)
       /\ 0 <= p < codeword_bits VariantC /\ p <> 1
       /\ syndrome VariantC (bit_at p) = 17.
Proof.
  assert (Hs : 1 <= 17 < 2 ^ check_bits VariantC) by (cbn; lia).
  exact (conj Hs (syndrome_names_its_bit VariantC 17 Hs)).
Defined.

Lemma position_syndromes_ok (V : variant) :
  forallb (fun p =>
    (p =? 1)
    || (outcome_eqb (syndrome_map V (syndrome V (bit_at p)))
          (Ok (p, is_check_position V p))
        && (1 <=? syndrome V (bit_at p))
        && (syndrome V (bit_at p) <? 2 ^ check_bits V)))
    (Zseq (Z.to_nat (codeword_bits V))) = true.
Proof. destruct V; vm_compute; reflexivity. Qed.

(** X9 -- From position to syndrome and back: in every variant a flip of
    any single bit of the layout other than the global parity bit has a
    nonzero syndrome that [mapSyndromeToBitPos] maps back to that position;
    distinct positions therefore never share a syndrome. *)
Theorem bit_names_its_syndrome (V : variant) (p : Z) :
  0 <= p < codeword_bits V -> p <> 1 ->
  syndrome_map V (syndrome V (bit_at p)) = Ok (p, is_check_position V p)
  /\ 1 <= syndrome V (bit_at p) < 2 ^ check_bits V.
Proof.
  intros Hp Hne.
  pose proof (Zseq_forall _ _ (position_syndromes_ok V) p
                (codeword_bits_nat V p Hp)) as H.
  cbv beta in H.
  apply orb_prop in H as [H|H]; [apply Z.eqb_eq in H; contradiction|].
  apply andb_prop in H as [H H3]. apply andb_prop in H as [H1 H2].
  apply outcome_eqb_true in H1. apply Z.leb_le in H2. apply Z.ltb_lt in H3.
  split; [exact H1 | split; assumption].
Qed.

Lemma bit_names_its_syndrome_witness :
  (0 <= 63 < codeword_bits VariantC /\ 63 <> 1)
  /\ syndrome_map VariantC (syndrome VariantC (bit_at 63))
     = Ok (63, is_check_position VariantC 63).
Proof.
  assert (Hp : 0 <= 63 < codeword_bits VariantC) by (cbn; lia).
  assert (Hne : 63 <> 1) by discriminate.
  exact (conj (conj Hp Hne)
           (proj1 (bit_names_its_syndrome VariantC 63 Hp Hne))).
Defined.

(** *** Inputs of the check-bit computation *)

Lemma reserved_words_ok (V : variant) :
  forallb (fun m => Z.odd m || (check_of V m =? 0))
    (Zseq (Z.to_nat (2 ^ value_shift V))) = true.
Proof. destruct V; vm_compute; reflexivity. Qed.

(** X10 -- The check bits and the global parity bit are not inputs of the
    check-bit computation: in every variant [computeHammingCheckBits]
    returns the same result when any of the bits at positions 1 to [r + 1]
    of its argument are changed. *)
Theorem check_bits_ignore_reserved (V : variant) (w m : Z) :
  0 <= m < 2 ^ value_shift V -> Z.odd m = false ->
  check_of V (Z.lxor w m) = check_of V w.
Proof.
  intros Hm Hodd.
  assert (Hn : 0 <= m < Z.of_nat (Z.to_nat (2 ^ value_shift V)))
    by (destruct V; cbn in *; lia).
  pose proof (Zseq_forall _ _ (reserved_words_ok V) m Hn) as H.
  cbv beta in H.
  apply orb_prop in H as [H|H]; [congruence|].
  apply Z.eqb_eq in H.
  now rewrite check_of_lxor, H, Z.lxor_0_r.
Qed.

Lemma check_bits_ignore_reserved_witness :
  (0 <= 0x3e < 2 ^ value_shift VariantB /\ Z.odd 0x3e = false)
  /\ check_of VariantB (Z.lxor 0x1234 0x3e) = check_of VariantB 0x1234.
Proof.
  assert (Hm : 0 <= 0x3e < 2 ^ value_shift VariantB) by (cbn; lia).
  assert (Ho : Z.odd 0x3e = false) by reflexivity.
  exact (conj (conj Hm Ho)
           (check_bits_ignore_reserved VariantB 0x1234 0x3e Hm Ho)).
Defined.

(** X11 -- The syndrome of a corrupted codeword depends on the flipped bits
    only, not on the stored value or tag; in particular a flip of the Tag
    bit alone always has syndrome 3. *)
Theorem syndrome_of_corruption (V : variant) (v t e : Z) :
  syndrome V (Z.lxor (pack V v t) e) = syndrome V e
  /\ syndrome V (Z.lxor (pack V v t) (bit_at 0)) = 3.
Proof.
  assert (G : forall x, syndrome V (Z.lxor (pack V v t) x) = syndrome V x).
  { intros x. unfold syndrome.
    apply valid_lxor_syndrome.
    - apply get_of_lxor.
    - apply check_of_lxor.
    - apply pack_valid. }
  split; [apply G|]. rewrite G. destruct V; vm_compute; reflexivity.
Qed.

(** ** Package sqlite3schema *)

Import Sqlite3schema.

Ltac rune_codes :=
  change (rune "a") with 97 in *; change (rune "z") with 122 in *;
  change (rune "0") with 48 in *; change (rune "9") with 57 in *;
  change (rune "_") with 95 in *.

(** The four ways the loop body of [checkEscapeForLike] can go. *)
Lemma escape_step (esc i ch : Z) (rest : list (Z * Z)) (buf : list Z) :
  (ch = esc
   /\ checkEscapeForLike_loop ((i, ch) :: rest) esc buf
      = ([], Some (ContainsEscapeChar ch i)))
  \/ (ch <> esc /\ safe_rune ch = true /\ ch <> 95 /\ ch <> 37
      /\ checkEscapeForLike_loop ((i, ch) :: rest) esc buf
         = checkEscapeForLike_loop rest esc (buf ++ [ch]))
  \/ (ch <> esc /\ ch = 95
      /\ checkEscapeForLike_loop ((i, ch) :: rest) esc buf
         = checkEscapeForLike_loop rest esc (buf ++ [esc; ch]))
  \/ (ch <> esc /\ safe_rune ch = false
      /\ checkEscapeForLike_loop ((i, ch) :: rest) esc buf
         = ([], Some (NotSafe ch i))).
Proof.
  cbn [checkEscapeForLike_loop]. unfold safe_rune. rune_codes.
  destruct (Z.eqb_spec ch esc) as [He|He]; [left; auto|].
  right.
  destruct (Z.leb_spec 97 ch), (Z.leb_spec ch 122), (Z.leb_spec 48 ch),
    (Z.leb_spec ch 57), (Z.eqb_spec ch 95); cbn [andb orb];
    try (left; repeat split; auto; lia);
    try (right; left; repeat split; auto; lia);
    try (right; right; repeat split; auto; lia).
Qed.

Lemma escape_loop_success (esc : Z) (s : list (Z * Z)) :
  forall buf out,
    checkEscapeForLike_loop s esc buf = (out, None) ->
    exists tail, out = buf ++ tail
                 /\ like_literal esc tail = Some (map snd s)
                 /\ Forall (passes esc) s.
Proof.
  induction s as [|[i ch] rest IH]; intros buf out H.
  - cbn in H. exists []. rewrite app_nil_r. repeat split; [congruence|constructor].
  - destruct (escape_step esc i ch rest buf)
      as [(_ & E)|[(Hne & Hs & H95 & H37 & E)|[(Hne & H95 & E)|(_ & _ & E)]]];
      rewrite E in H; try discriminate.
    + destruct (IH _ _ H) as (tail & -> & Hl & Hf).
      exists (ch :: tail). rewrite <- app_assoc. repeat split.
      * cbn [like_literal map snd].
        destruct (Z.eqb_spec ch esc); [contradiction|].
        destruct (Z.eqb_spec ch 95); [contradiction|].
        destruct (Z.eqb_spec ch 37); [contradiction|].
        cbn [orb]. now rewrite Hl.
      * constructor; [split; assumption | assumption].
    + destruct (IH _ _ H) as (tail & -> & Hl & Hf).
      exists (esc :: ch :: tail). rewrite <- app_assoc. repeat split.
      * cbn [like_literal map snd]. rewrite Z.eqb_refl. now rewrite Hl.
      * constructor; [|assumption]. split; [subst ch; reflexivity|assumption].
Qed.



Lemma escape_loop_passes (esc : Z) (s : list (Z * Z)) :
  Forall (passes esc) s ->
  forall buf, snd (checkEscapeForLike_loop s esc buf) = None.
Proof.
  induction 1 as [|[i ch] rest [Hs Hne] _ IH]; intros buf; [reflexivity|].
  cbn [snd] in Hs, Hne.
  destruct (escape_step esc i ch rest buf)
    as [(He & _)|[(_ & _ & _ & _ & E)|[(_ & _ & E)|(_ & Hf & _)]]];
    try contradiction; try congruence; rewrite E; apply IH.
Qed.

(** X13 -- What [checkEscapeForLike] accepts: it returns no error exactly
    when every rune of the name fragment is in [a-z], [0-9] or an underscore
    and none is the escape character. *)
Theorem escape_accepts_iff (s : list (Z * Z)) (esc : Z) :
  snd (checkEscapeForLike s esc) = None <-> Forall (passes esc) s.
Proof.
  split.
  - intros H. unfold checkEscapeForLike in H.
    destruct (checkEscapeForLike_loop s esc []) as [out err] eqn:E.
    cbn [snd] in H. subst err.
    now destruct (escape_loop_success esc s [] out E) as (_ & _ & _ & Hf).
  - intros H. now apply escape_loop_passes.
Qed.

Lemma escape_loop_error (esc : Z) (s : list (Z * Z)) :
  forall buf out err,
    checkEscapeForLike_loop s esc buf = (out, Some err) ->
    out = []
    /\ exists pre i ch post,
         s = pre ++ (i, ch) :: post
         /\ Forall (passes esc) pre
         /\ ~ passes esc (i, ch)
         /\ err = (if ch =? esc then ContainsEscapeChar ch i
                   else NotSafe ch i).
Proof.
  induction s as [|[i ch] rest IH]; intros buf out err H.
  - discriminate H.
  - destruct (escape_step esc i ch rest buf)
      as [(He & E)|[(Hne & Hs & _ & _ & E)|[(Hne & H95 & E)|(Hne & Hs & E)]]];
      rewrite E in H.
    + split; [congruence|]. exists [], i, ch, rest.
      repeat split; [constructor | | ].
      * intros [_ Hc]. now apply Hc.
      * rewrite (proj2 (Z.eqb_eq ch esc) He). congruence.
    + destruct (IH _ _ _ H) as (-> & pre & j & c & post & -> & Hf & Hn & ->).
      split; [reflexivity|]. exists ((i, ch) :: pre), j, c, post.
      repeat split; auto. constructor; [split; assumption | assumption].
    + destruct (IH _ _ _ H) as (-> & pre & j & c & post & -> & Hf & Hn & ->).
      split; [reflexivity|]. exists ((i, ch) :: pre), j, c, post.
      repeat split; auto. constructor; [|assumption].
      split; [subst ch; reflexivity | assumption].
    + split; [congruence|]. exists [], i, ch, rest.
      repeat split; [constructor | | ].
      * intros [Hc _]. cbn [snd] in Hc. congruence.
      * destruct (Z.eqb_spec ch esc); [contradiction | congruence].
Qed.

(** X14 -- The error of [checkEscapeForLike] names the first offender: on
    failure the returned text is empty and the error carries the rune and
    byte index of the first rune that is the escape character or outside
    [a-z0-9_]; the message is the escape-character one exactly when that
    rune is the escape character. *)
Theorem escape_error_first_offender
    (s : list (Z * Z)) (esc : Z) (out : list Z) (err : name_error) :
  checkEscapeForLike s esc = (out, Some err) ->
  out = []
  /\ exists pre i ch post,
       s = pre ++ (i, ch) :: post
       /\ Forall (passes esc) pre
       /\ ~ passes esc (i, ch)
       /\ err = (if ch =? esc then ContainsEscapeChar ch i else NotSafe ch i).
Proof. apply escape_loop_error. Qed.

Lemma escape_error_first_offender_witness :
  checkEscapeForLike [(0, 97); (1, 33); (2, 65)] 33
  = ([], Some (ContainsEscapeChar 33 1))
  /\ exists pre i ch post,
       [(0, 97); (1, 33); (2, 65)] = pre ++ (i, ch) :: post
       /\ Forall (passes 33) pre
       /\ ~ passes 33 (i, ch)
       /\ ContainsEscapeChar 33 1
          = (if ch =? 33 then ContainsEscapeChar ch i else NotSafe ch i).
Proof.
  assert (H : checkEscapeForLike [(0, 97); (1, 33); (2, 65)] 33
              = ([], Some (ContainsEscapeChar 33 1))) by reflexivity.
  exact (conj H (proj2 (escape_error_first_offender _ 33 _ _ H))).
Defined.

Lemma safe_step (i ch : Z) (rest : list (Z * Z)) :
  (safe_rune ch = true
   /\ checkSafeNameChars ((i, ch) :: rest) = checkSafeNameChars rest)
  \/ (safe_rune ch = false
      /\ checkSafeNameChars ((i, ch) :: rest) = Some (NotSafe ch i)).
Proof.
  cbn [checkSafeNameChars]. unfold safe_rune. rune_codes.
  destruct (Z.leb_spec 97 ch), (Z.leb_spec ch 122), (Z.leb_spec 48 ch),
    (Z.leb_spec ch 57), (Z.eqb_spec ch 95); cbn [andb orb]; auto.
Qed.

Lemma safe_accepts_iff (s : list (Z * Z)) :
  checkSafeNameChars s = None
  <-> Forall (fun item => safe_rune (snd item) = true) s.
Proof.
  induction s as [|[i ch] rest IH].
  - split; [constructor | reflexivity].
  - destruct (safe_step i ch rest) as [(Hs & E)|(Hs & E)]; rewrite E.
    + rewrite IH. split.
      * intros H. now constructor.
      * intros H. now inversion H.
    + split; [discriminate|].
      intros H. inversion H as [|? ? Hc _]. cbn [snd] in Hc. congruence.
Qed.

(** X15 -- The two versions of the name check agree: for an escape
    character outside [a-z0-9_], [checkEscapeForLike] accepts a name
    fragment exactly when [checkSafeNameChars] does. *)
Theorem escape_check_agrees_with_safe_check (s : list (Z * Z)) (esc : Z) :
  safe_rune esc = false ->
  (snd (checkEscapeForLike s esc) = None <-> checkSafeNameChars s = None).
Proof.
  intros Hesc. rewrite escape_accepts_iff, safe_accepts_iff.
  rewrite !Forall_forall. split; intros H item Hin.
  - now destruct (H item Hin).
  - split; [now apply H|]. intros E. rewrite <- E in Hesc.
    rewrite (H item Hin) in Hesc. discriminate.
Qed.

Lemma escape_check_agrees_with_safe_check_witness :
  safe_rune 33 = false
  /\ (snd (checkEscapeForLike [(0, 97); (1, 95)] 33) = None
      <-> checkSafeNameChars [(0, 97); (1, 95)] = None).
Proof.
  assert (H : safe_rune 33 = false) by reflexivity.
  exact (conj H (escape_check_agrees_with_safe_check [(0, 97); (1, 95)] 33 H)).
Defined.

(** *** Reading the rows of [sqlite_master] *)

Lemma int32_small (x : Z) : - 2 ^ 31 <= x < 2 ^ 31 -> int32 x = x.
Proof. intros H. unfold int32. rewrite Z.mod_small; lia. Qed.

Lemma convertRow_ok (row : master_row) (e : ElementFound) :
  convertRow row = inl e -> accepted_row row /\ element_of_row row e.
Proof.
  unfold convertRow, accepted_row, element_of_row, MaxInt32.
  destruct row as [ty page name tbl text]; cbn [elemTypeText elemRootPage
    rowName rowTableName elemSQL].
  assert (P : forall rp,
    match page with
    | Some pg => if pg <? 0 then inr (NegativeRootPage pg
                     {| elemTypeText := ty; elemRootPage := page;
                        rowName := name; rowTableName := tbl;
                        elemSQL := text |})
                 else if pg >=? 2 ^ 31 - 1 then inr (RootPageTooBig pg
                     {| elemTypeText := ty; elemRootPage := page;
                        rowName := name; rowTableName := tbl;
                        elemSQL := text |})
                 else inl (int32 pg)
    | None => inl (-1)
    end = inl rp ->
    match page with Some pg => 0 <= pg < 2 ^ 31 - 1 | None => True end
    /\ rp = match page with Some pg => pg | None => -1 end).
  { intros rp. destruct page as [pg|]; [|intros [= <-]; auto].
    destruct (Z.ltb_spec pg 0); [discriminate|].
    destruct (Z.geb_spec pg (2 ^ 31 - 1)); [discriminate|].
    intros [= <-]. split; [lia|]. apply int32_small. lia. }
  destruct (match page with Some _ => _ | None => _ end) as [rp|]
    eqn:Hrp; [|discriminate].
  destruct (P rp eq_refl) as [Hpage ->]. clear P Hrp.
  assert (Q : forall sqltext,
    match text with
    | Some t => inl t
    | None =>
        if negb (String.eqb ty "index" && String.prefix "sqlite_autoindex_" name)
        then inr (UnexpectedNullSQL
                    {| elemTypeText := ty; elemRootPage := page;
                       rowName := name; rowTableName := tbl;
                       elemSQL := text |}
                    match page with Some pg => pg | None => -1 end)
        else inl EmptyString
    end = inl sqltext ->
    (text = None ->
     ty = "index"%string /\ String.prefix "sqlite_autoindex_" name = true)
    /\ sqltext = match text with Some t => t | None => EmptyString end).
  { intros sqltext. destruct text as [t|]; [intros [= <-]; split; congruence|].
    destruct (String.eqb_spec ty "index"); cbn [andb negb]; [|discriminate].
    destruct (String.prefix _ name); cbn [negb]; [|discriminate].
    intros [= <-]. auto. }
  destruct (match text with Some _ => _ | None => _ end) as [sqltext|]
    eqn:Hsql; [|discriminate].
  destruct (Q sqltext eq_refl) as [Hnull ->]. clear Q Hsql.
  destruct (String.eqb_spec ty "table") as [->|Ht].
  { destruct (String.eqb_spec name tbl) as [->|]; cbn [negb]; [|discriminate].
    intros [= <-]. cbn. repeat split; auto; intuition congruence. }
  destruct (String.eqb_spec ty "index") as [->|Hi].
  { intros [= <-]. cbn. repeat split; auto; intuition congruence. }
  destruct (String.eqb_spec ty "view") as [->|Hv].
  { destruct (String.eqb_spec name tbl) as [->|]; cbn [negb]; [|discriminate].
    intros [= <-]. cbn. repeat split; auto; intuition congruence. }
  destruct (String.eqb_spec ty "trigger") as [->|Hg]; [|discriminate].
  intros [= <-]. cbn. repeat split; auto; intuition congruence.
Qed.

Lemma element_of_row_well_formed (row : master_row) (e : ElementFound) :
  accepted_row row -> element_of_row row e -> well_formed_element e.
Proof.
  intros (Hp & _ & Hn & _) (En & Et & Er & _ & Ety).
  unfold well_formed_element, TableElem, ViewElem, IndexElem, TriggerElem in *.
  repeat split.
  - rewrite Er. destruct (elemRootPage row); unfold MaxInt32 in *; lia.
  - rewrite Er. destruct (elemRootPage row); unfold MaxInt32 in *; lia.
  - intuition lia.
  - intuition lia.
  - intros Hty. rewrite En, Et. apply Hn.
    destruct Ety as [(T & E)|[(T & E)|[(T & E)|(T & E)]]];
      rewrite E in Hty; intuition congruence.
Qed.

Lemma read_loop_spec (rows : list (master_row + string))
    (rowsErr : option string) :
  forall acc result err,
    readSQLiteMasterRows_loop rows rowsErr acc = (result, err) ->
    exists done rest more,
      rows = map inl done ++ rest
      /\ result = acc ++ more
      /\ Forall accepted_row done
      /\ Forall2 element_of_row done more
      /\ match rest with
         | [] => err = option_map RowsErr rowsErr
         | inr msg :: _ => err = Some (ScanFailed msg)
         | inl row :: _ => exists e, convertRow row = inr e /\ err = Some e
         end.
Proof.
  induction rows as [|[row|msg] rows IH]; intros acc result err H;
    cbn [readSQLiteMasterRows_loop] in H.
  - exists [], [], []. cbn [map app]. rewrite app_nil_r.
    split; [reflexivity|]. split; [destruct rowsErr; congruence|].
    split; [constructor|]. split; [constructor|].
    destruct rowsErr; cbn [option_map]; congruence.
  - destruct (convertRow row) as [e|e] eqn:E.
    + destruct (IH _ _ _ H) as (done & rest & more & -> & -> & Ha & Hf & Hr).
      destruct (convertRow_ok row e E) as [Hacc Hel].
      exists (row :: done), rest, (e :: more).
      rewrite <- app_assoc.
      split; [reflexivity|]. split; [reflexivity|].
      split; [now constructor|]. split; [now constructor|]. exact Hr.
    + exists [], (inl row :: rows), []. cbn [map app]. rewrite app_nil_r.
      split; [reflexivity|]. split; [congruence|].
      split; [constructor|]. split; [constructor|].
      exists e. split; congruence.
  - exists [], (inr msg :: rows), []. cbn [map app]. rewrite app_nil_r.
    split; [reflexivity|]. split; [congruence|].
    split; [constructor|]. split; [constructor|]. congruence.
Qed.

Lemma convertRow_accepts (row : master_row) :
  accepted_row row -> exists e, convertRow row = inl e.
Proof.
  unfold convertRow, accepted_row, MaxInt32.
  destruct row as [ty page name tbl text]; cbn [elemTypeText elemRootPage
    rowName rowTableName elemSQL].
  intros (Hp & Hnull & Hname & Hty).
  assert (P : exists rp,
    match page with
    | Some pg => if pg <? 0 then inr (NegativeRootPage pg
                     {| elemTypeText := ty; elemRootPage := page;
                        rowName := name; rowTableName := tbl;
                        elemSQL := text |})
                 else if pg >=? 2 ^ 31 - 1 then inr (RootPageTooBig pg
                     {| elemTypeText := ty; elemRootPage := page;
                        rowName := name; rowTableName := tbl;
                        elemSQL := text |})
                 else inl (int32 pg)
    | None => inl (-1)
    end = inl rp).
  { destruct page as [pg|]; [|eauto].
    destruct (Z.ltb_spec pg 0); [lia|].
    destruct (Z.geb_spec pg (2 ^ 31 - 1)); [lia|]. eauto. }
  destruct P as [rp ->].
  assert (Q : exists sqltext,
    match text with
    | Some t => inl t
    | None =>
        if negb (String.eqb ty "index" && String.prefix "sqlite_autoindex_" name)
        then inr (UnexpectedNullSQL
                    {| elemTypeText := ty; elemRootPage := page;
                       rowName := name; rowTableName := tbl;
                       elemSQL := text |} rp)
        else inl EmptyString
    end = inl sqltext).
  { destruct text as [t|]; [eauto|].
    destruct (Hnull eq_refl) as [-> ->]. cbn. eauto. }
  destruct Q as [sqltext ->].
  destruct Hty as [-> | [-> | [-> | ->]]]; cbn [String.eqb Ascii.eqb Bool.eqb].
  - rewrite (Hname (or_introl eq_refl)), String.eqb_refl. cbn [negb]. eauto.
  - eauto.
  - rewrite (Hname (or_intror eq_refl)), String.eqb_refl. cbn [negb]. eauto.
  - eauto.
Qed.

Lemma read_loop_accepts (rowsErr : option string) (scanned : list master_row) :
  Forall accepted_row scanned ->
  forall acc,
    snd (readSQLiteMasterRows_loop (map inl scanned) rowsErr acc)
    = option_map RowsErr rowsErr.
Proof.
  induction 1 as [|row rest Hrow _ IH]; intros acc;
    cbn [map readSQLiteMasterRows_loop].
  - now destruct rowsErr.
  - destruct (convertRow_accepts row Hrow) as [e ->]. apply IH.
Qed.

(** X16 -- A successful read returns one element per row, in order: when
    [readSQLiteMasterRows] returns no error, every row was scanned and
    accepted, [rows.Err] reported nothing, and the i-th element carries the
    name, table name and SQL text of the i-th row, its root page unchanged
    by the conversion to [int32] (-1 for NULL), and the type code of its
    type text. *)
Theorem read_rows_success (rows : list (master_row + string))
    (rowsErr : option string) (result : list ElementFound) :
  readSQLiteMasterRows rows rowsErr = (result, None) ->
  rowsErr = None
  /\ exists scanned,
       rows = map inl scanned
       /\ Forall accepted_row scanned
       /\ Forall2 element_of_row scanned result.
Proof.
  intros H.
  destruct (read_loop_spec rows rowsErr [] result None H)
    as (done & rest & more & -> & -> & Ha & Hf & Hr).
  destruct rest as [|[row|msg] rest].
  - split; [destruct rowsErr; [discriminate Hr | reflexivity]|].
    exists done. rewrite app_nil_r. cbn [app]. auto.
  - destruct Hr as (e & _ & He). discriminate He.
  - discriminate Hr.
Qed.

(** X17 -- What [readSQLiteMasterRows] accepts: it returns no error exactly
    when no scan failed, [rows.Err] reports nothing, and every row has a
    root page that is NULL or in [0, MaxInt32 - 1], an SQL text that is
    NULL only for an index named [sqlite_autoindex_...], one of the four
    known types, and, for a table or a view, equal name and table name. *)
Theorem read_rows_accepts_iff (rows : list (master_row + string))
    (rowsErr : option string) :
  snd (readSQLiteMasterRows rows rowsErr) = None
  <-> rowsErr = None
      /\ exists scanned, rows = map inl scanned /\ Forall accepted_row scanned.
Proof.
  split.
  - intros H.
    destruct (readSQLiteMasterRows rows rowsErr) as [result err] eqn:E.
    cbn [snd] in H. subst err.
    destruct (read_loop_spec rows rowsErr [] result None E)
      as (done & rest & more & -> & _ & Ha & _ & Hr).
    destruct rest as [|[row|msg] rest].
    + split; [destruct rowsErr; [discriminate Hr | reflexivity]|].
      exists done. rewrite app_nil_r. auto.
    + destruct Hr as (e & _ & He). discriminate He.
    + discriminate Hr.
  - intros (-> & scanned & -> & Ha).
    unfold readSQLiteMasterRows. now rewrite read_loop_accepts.
Qed.

(** X18 -- Whatever the outcome, every element [readSQLiteMasterRows]
    returns has a root page in [-1, MaxInt32 - 1], one of the four element
    types (never [NoElem]), and, when it is a table or a view, a name equal
    to its table name. *)
Theorem read_rows_elements_well_formed (rows : list (master_row + string))
    (rowsErr : option string) :
  Forall well_formed_element (fst (readSQLiteMasterRows rows rowsErr)).
Proof.
  destruct (readSQLiteMasterRows rows rowsErr) as [result err] eqn:E.
  destruct (read_loop_spec rows rowsErr [] result err E)
    as (done & rest & more & _ & -> & Ha & Hf & _).
  cbn [fst app]. clear E.
  induction Hf as [|row e done more Hel _ IH]; [constructor|].
  inversion Ha as [|? ? Hrow Hrest]; subst.
  constructor; [now apply (element_of_row_well_formed row) | now apply IH].
Qed.

(** X19 -- A failed read stops at the first problem and keeps what came
    before: the returned elements are those of the rows preceding the first
    failed scan or rejected row, and when all rows pass, the error is the
    one of [rows.Err]. *)
Theorem read_rows_stops_at_first_error (rows : list (master_row + string))
    (rowsErr : option string) (result : list ElementFound) (e : read_error) :
  readSQLiteMasterRows rows rowsErr = (result, Some e) ->
  exists done rest,
    rows = map inl done ++ rest
    /\ Forall accepted_row done
    /\ Forall2 element_of_row done result
    /\ ((rest = [] /\ exists msg, rowsErr = Some msg /\ e = RowsErr msg)
        \/ (exists msg rest', rest = inr msg :: rest' /\ e = ScanFailed msg)
        \/ (exists row rest', rest = inl row :: rest' /\ ~ accepted_row row)).
Proof.
  intros H.
  destruct (read_loop_spec rows rowsErr [] result (Some e) H)
    as (done & rest & more & -> & -> & Ha & Hf & Hr).
  exists done, rest. cbn [app].
  split; [reflexivity|]. split; [assumption|]. split; [assumption|].
  destruct rest as [|[row|msg] rest].
  - left. split; [reflexivity|].
    destruct rowsErr as [msg|]; [|discriminate Hr].
    exists msg. cbn in Hr. split; congruence.
  - right; right. exists row, rest. split; [reflexivity|].
    destruct Hr as (e' & He' & _). intros Hacc.
    destruct (convertRow_accepts row Hacc) as [x Hx]. congruence.
  - right; left. exists msg, rest. split; congruence.
Qed.

Lemma read_rows_success_witness :
  readSQLiteMasterRows sample_rows None
  = (fst (readSQLiteMasterRows sample_rows None), None)
  /\ (@None string = None
      /\ exists scanned,
           sample_rows = map inl scanned
           /\ Forall accepted_row scanned
           /\ Forall2 element_of_row scanned
                (fst (readSQLiteMasterRows sample_rows None))).
Proof.
  refine ((fun H => conj H (read_rows_success sample_rows None _ H)) _).
  reflexivity.
Defined.

Lemma read_rows_stops_at_first_error_witness :
  readSQLiteMasterRows sample_rows_bad_page None
  = (fst (readSQLiteMasterRows sample_rows_bad_page None),
     Some (NegativeRootPage (-5)
             {| elemTypeText := "table"; elemRootPage := Some (-5);
                rowName := "t2"; rowTableName := "t2";
                elemSQL := Some "CREATE TABLE t2(y)"%string |}))
  /\ exists done rest,
       sample_rows_bad_page = map inl done ++ rest
       /\ Forall accepted_row done
       /\ Forall2 element_of_row done
            (fst (readSQLiteMasterRows sample_rows_bad_page None))
       /\ ((rest = []
            /\ exists msg,
                 @None string = Some msg
                 /\ NegativeRootPage (-5)
                      {| elemTypeText := "table"; elemRootPage := Some (-5);
                         rowName := "t2"; rowTableName := "t2";
                         elemSQL := Some "CREATE TABLE t2(y)"%string |}
                    = RowsErr msg)
           \/ (exists msg rest',
                 rest = inr msg :: rest'
                 /\ NegativeRootPage (-5)
                      {| elemTypeText := "table"; elemRootPage := Some (-5);
                         rowName := "t2"; rowTableName := "t2";
                         elemSQL := Some "CREATE TABLE t2(y)"%string |}
                    = ScanFailed msg)
           \/ (exists row rest', rest = inl row :: rest' /\ ~ accepted_row row)).
Proof.
  refine ((fun H =>
             conj H (read_rows_stops_at_first_error
                       sample_rows_bad_page None _ _ H)) _).
  reflexivity.
Defined.
